(** * The invite-events table of the sync API (SQLite backend) and the
      destination ledger of the federation sender

    The first part embeds [syncapi_invite_events] and the four methods of
    [inviteEventsStatements]: [InsertInviteEvent], [DeleteInviteEvent],
    [SelectInviteEventsInRange] and [SelectMaxInviteID].  A Go method that
    receives [txn *sql.Tx] becomes a state transformer over the
    transaction; SQL statements become functions on the tables the
    transaction sees.

    The second part embeds [NewDatabase] of the Postgres federation
    storage and models the destination ledger (failure count, backoff,
    blacklist) that it wires up through [NewPostgresBlacklistTable]. *)

From stdpp Require Import base option list gmap strings sorting.
From Stdlib Require Import ZArith Lia.

Open Scope Z_scope.

(** ** Errors and Go-style results *)

Inductive error : Type :=
  | ErrTxDone          (* sql.ErrTxDone: the transaction was committed or rolled back *)
  | ErrCanceled        (* context.Canceled *)
  | ErrConstraint      (* PRIMARY KEY constraint failed *)
  | ErrJSON.           (* encoding/json failure *)

Inductive fallible (A : Type) : Type :=
  | Ok (a : A)
  | Err (e : error).
Arguments Ok {A} a.
Arguments Err {A} e.

(** [context.Context], as far as database/sql looks at it. *)
Inductive Context : Type := Background | Canceled.

(** [types.StreamPosition] is an int64; SQLite's INTEGER is 64 bits too.
    Positions are counted up from zero one at a time, so the model uses
    unbounded integers. *)
Definition StreamPosition : Type := Z.

(** [types.Range]: the type is declared outside the files at hand; the
    query reads it through [Low()] and [High()] only. *)
Record Range : Type := mkRange { Low : StreamPosition; High : StreamPosition }.

(** [gomatrixserverlib.HeaderedEvent], through the three accessors that
    the table uses.  [StateKey()] returns a [*string], which is nil for
    an event that is not a state event. *)
Record HeaderedEvent : Type := mkEvent {
  RoomID : string;
  EventID : string;
  StateKey : option string
}.

Global Instance error_eq_dec : EqDecision error.
Proof. solve_decision. Defined.
Global Instance HeaderedEvent_eq_dec : EqDecision HeaderedEvent.
Proof. solve_decision. Defined.

(** ** The relational store *)

(** One row of [syncapi_invite_events]. *)
Record InviteRow : Type := mkRow {
  id : Z;
  event_id : string;
  room_id : string;
  target_user_id : string;
  headered_event_json : string;
  deleted : bool
}.

Global Instance InviteRow_eq_dec : EqDecision InviteRow.
Proof. solve_decision. Defined.

(** The tables a statement can see: the invite stream counter of
    [streamIDStatements] and the invite rows, in storage order. *)
Record Tables : Type := mkTables {
  stream_id : Z;
  syncapi_invite_events : list InviteRow
}.

(** [inviteEventsSchema]: CREATE TABLE IF NOT EXISTS on a fresh database. *)
Definition inviteEventsSchema : Tables :=
  {| stream_id := 0; syncapi_invite_events := [] |}.

(** A [*sql.Tx]: whether it has ended, and the tables as this transaction
    sees them (its own writes included). *)
Record Tx : Type := mkTx { done : bool; view : Tables }.

Definition Begin (db : Tables) : Tx := {| done := false; view := db |}.

(** Commit publishes every write of the transaction at once. *)
Definition Commit (txn : Tx) (db : Tables) : fallible Tables :=
  if done txn then Err ErrTxDone else Ok (view txn).

Definition Rollback (txn : Tx) (db : Tables) : fallible Tables :=
  if done txn then Err ErrTxDone else Ok db.

(** ** Go functions over a transaction *)

(** A call either returns, or panics (a run-time fault such as a nil
    dereference).  Either way the statements already run have acted on
    the transaction. *)
Inductive Outcome (A : Type) : Type :=
  | Returns (a : A) (txn : Tx)
  | Panics (txn : Tx).
Arguments Returns {A} a txn.
Arguments Panics {A} txn.

Definition Go (A : Type) : Type := Tx → Outcome A.

Global Instance Go_ret : MRet Go := λ A a txn, Returns a txn.
Global Instance Go_bind : MBind Go := λ A B k m txn,
  match m txn with
  | Returns a txn' => k a txn'
  | Panics txn' => Panics txn'
  end.
Definition panic {A} : Go A := λ txn, Panics txn.

Definition state_of {A} (o : Outcome A) : Tx :=
  match o with Returns _ txn => txn | Panics txn => txn end.

(** [sqlutil.TxStmt(txn, stmt)] followed by [stmt.ExecContext(ctx, ...)]:
    a statement bound to a finished transaction fails with
    [sql.ErrTxDone], a cancelled context fails before anything runs, and
    a failing statement leaves the tables as they were. *)
Definition ExecContext (ctx : Context) (stmt : Tables → fallible Tables)
  : Go (option error) :=
  λ txn,
    if done txn then Returns (Some ErrTxDone) txn
    else match ctx with
         | Canceled => Returns (Some ErrCanceled) txn
         | Background =>
             match stmt (view txn) with
             | Err e => Returns (Some e) txn
             | Ok t => Returns None {| done := false; view := t |}
             end
         end.

(** [stmt.QueryContext(ctx, ...)]: reads, and writes nothing. *)
Definition QueryContext {A} (ctx : Context) (query : Tables → A)
  : Go (fallible A) :=
  λ txn,
    if done txn then Returns (Err ErrTxDone) txn
    else match ctx with
         | Canceled => Returns (Err ErrCanceled) txn
         | Background => Returns (Ok (query (view txn))) txn
         end.

(** Unfolds the plumbing of [Go] in a goal. *)
Ltac go_unfold :=
  unfold mbind, mret, Go_bind, Go_ret, ExecContext, QueryContext, panic in *.

(** ** SQL statements *)

Definition ids (rows : list InviteRow) : list Z := id <$> rows.

(** INSERT of one row: [id] is the INTEGER PRIMARY KEY, so a row whose id
    is taken is refused. *)
Definition sql_insert (row : InviteRow) (rows : list InviteRow)
  : fallible (list InviteRow) :=
  if decide (id row ∈ ids rows) then Err ErrConstraint else Ok (rows ++ [row]).

(** UPDATE ... SET ... WHERE: rows are visited in storage order; a row that
    would take the id of another row aborts the statement (the caller then
    keeps the table as it was). [seen] holds the rows already visited. *)
Fixpoint sql_update (where' : InviteRow → bool) (set : InviteRow → InviteRow)
    (seen rest : list InviteRow) : fallible (list InviteRow) :=
  match rest with
  | [] => Ok seen
  | r :: rest' =>
      if where' r then
        if decide (id (set r) ≠ id r ∧ id (set r) ∈ ids (seen ++ rest'))
        then Err ErrConstraint
        else sql_update where' set (seen ++ [set r]) rest'
      else sql_update where' set (seen ++ [r]) rest'
  end.

Definition with_rows (t : Tables) (r : fallible (list InviteRow)) : fallible Tables :=
  match r with
  | Ok rows => Ok {| stream_id := stream_id t; syncapi_invite_events := rows |}
  | Err e => Err e
  end.

(** INSERT INTO syncapi_invite_events
      (id, room_id, event_id, target_user_id, headered_event_json, deleted)
      VALUES ($1, $2, $3, $4, $5, false) *)
Definition insertInviteEventSQL (a1 : Z) (a2 a3 a4 a5 : string) (t : Tables)
  : fallible Tables :=
  with_rows t
    (sql_insert {| id := a1; room_id := a2; event_id := a3; target_user_id := a4;
                   headered_event_json := a5; deleted := false |}
                (syncapi_invite_events t)).

Definition is_active_event (a2 : string) (r : InviteRow) : bool :=
  bool_decide (event_id r = a2) && negb (deleted r).

Definition mark_deleted (a1 : Z) (r : InviteRow) : InviteRow :=
  {| id := a1; event_id := event_id r; room_id := room_id r;
     target_user_id := target_user_id r;
     headered_event_json := headered_event_json r; deleted := true |}.

(** UPDATE syncapi_invite_events SET deleted=true, id=$1
      WHERE event_id = $2 AND deleted=false *)
Definition deleteInviteEventSQL (a1 : Z) (a2 : string) (t : Tables)
  : fallible Tables :=
  with_rows t
    (sql_update (is_active_event a2) (mark_deleted a1) []
                (syncapi_invite_events t)).

(** ORDER BY id DESC, as an insertion sort. *)
Fixpoint insert_desc (r : InviteRow) (rows : list InviteRow) : list InviteRow :=
  match rows with
  | [] => [r]
  | x :: rows' =>
      if decide (id x < id r) then r :: x :: rows' else x :: insert_desc r rows'
  end.

Definition order_by_id_desc (rows : list InviteRow) : list InviteRow :=
  foldr insert_desc [] rows.

Definition in_range (a1 : string) (a2 a3 : Z) (r : InviteRow) : Prop :=
  target_user_id r = a1 ∧ a2 < id r ∧ id r ≤ a3.

Global Instance in_range_dec a1 a2 a3 r : Decision (in_range a1 a2 a3 r).
Proof. unfold in_range. apply _. Defined.

(** ... FROM syncapi_invite_events
      WHERE target_user_id = $1 AND id > $2 AND id <= $3 ORDER BY id DESC:
    the rows the cursor walks over, in cursor order. *)
Definition range_rows (a1 : string) (a2 a3 : Z) (t : Tables) : list InviteRow :=
  order_by_id_desc (filter (in_range a1 a2 a3) (syncapi_invite_events t)).

(** SELECT room_id, headered_event_json, deleted ... *)
Definition columns (r : InviteRow) : string * string * bool :=
  (room_id r, headered_event_json r, deleted r).

Definition selectInviteEventsInRangeSQL (a1 : string) (a2 a3 : Z) (t : Tables)
  : list (string * string * bool) :=
  columns <$> range_rows a1 a2 a3 t.

(** SELECT MAX(id) FROM syncapi_invite_events: NULL on an empty table. *)
Definition selectMaxInviteIDSQL (t : Tables) : option Z :=
  match ids (syncapi_invite_events t) with
  | [] => None
  | x :: xs => Some (foldr Z.max x xs)
  end.

(** ** Table invariants *)

(** The PRIMARY KEY constraint on [id]. *)
Definition primary_key (t : Tables) : Prop := NoDup (ids (syncapi_invite_events t)).

(** Every id in the table was handed out by the counter. *)
Definition positions_minted (t : Tables) : Prop :=
  Forall (λ r, id r ≤ stream_id t) (syncapi_invite_events t).

(** The row that a successful [InsertInviteEvent] writes. *)
Definition invite_row (p : Z) (e : HeaderedEvent) (stateKey json : string) : InviteRow :=
  {| id := p; event_id := EventID e; room_id := RoomID e;
     target_user_id := stateKey; headered_event_json := json; deleted := false |}.

(** The first row of a room that a cursor meets. *)
Definition first_in_room (k : string) (rows : list InviteRow) : option InviteRow :=
  head (filter (λ r, room_id r = k) rows).

(** The order of the cursor: ids fall. *)
Definition id_desc (a b : InviteRow) : Prop := id b ≤ id a.

(** ** The methods of [inviteEventsStatements] *)

Definition bump_stream_id (t : Tables) : Tables :=
  {| stream_id := stream_id t + 1;
     syncapi_invite_events := syncapi_invite_events t |}.

(** Modelled from the spec: [streamIDStatements.nextInviteID] is called by
    the methods below, but its file is not among the sources.  The spec
    describes the shared StreamPosition counter as "a monotonically
    increasing integer minted by a single shared sequence", "mutated
    exclusively via an atomic next value operation inside the owning
    transaction" (an "atomic counter read-and-increment"); storage errors
    are "propagated unchanged".  The counter is advanced by one and its new
    value is the position handed out; a failing statement yields the zero
    position and the error. *)
Definition nextInviteID (ctx : Context) : Go (StreamPosition * option error) :=
  err ← ExecContext ctx (λ t, Ok (bump_stream_id t));
  match err with
  | Some e => mret (0, Some e)
  | None =>
      pos ← QueryContext ctx stream_id;
      match pos with
      | Ok p => mret (p, None)
      | Err e => mret (0, Some e)
      end
  end.

Definition DeleteInviteEvent (ctx : Context) (inviteEventID : string)
  : Go (StreamPosition * option error) :=
  '(streamPos, err) ← nextInviteID ctx;
  match err with
  | Some _ => mret (streamPos, err)
  | None =>
      err ← ExecContext ctx (deleteInviteEventSQL streamPos inviteEventID);
      mret (streamPos, err)
  end.

Definition SelectMaxInviteID (ctx : Context) : Go (Z * option error) :=
  nullableID ← QueryContext ctx selectMaxInviteIDSQL;
  match nullableID with
  | Err e => mret (0, Some e)
  | Ok None => mret (0, None)
  | Ok (Some m) => mret (m, None)
  end.

Section InviteEvents.

(** [json.Marshal] and [json.Unmarshal] on a headered event belong to
    encoding/json and gomatrixserverlib; the table only passes their
    results on. *)
Variable json_Marshal : HeaderedEvent → fallible string.
Variable json_Unmarshal : string → fallible HeaderedEvent.

(** The arguments of [ExecContext] are evaluated before the call, so
    [*inviteEvent.StateKey()] faults on a nil state key after the
    position was minted and the event encoded, and before the INSERT
    runs. *)
Definition InsertInviteEvent (ctx : Context) (inviteEvent : HeaderedEvent)
  : Go (StreamPosition * option error) :=
  '(streamPos, err) ← nextInviteID ctx;
  match err with
  | Some _ => mret (streamPos, err)
  | None =>
      match json_Marshal inviteEvent with
      | Err e => mret (streamPos, Some e)
      | Ok headeredJSON =>
          match StateKey inviteEvent with
          | None => panic
          | Some stateKey =>
              err ← ExecContext ctx
                      (insertInviteEventSQL streamPos (RoomID inviteEvent)
                         (EventID inviteEvent) stateKey headeredJSON);
              mret (streamPos, err)
          end
      end
  end.

(** The loop over [rows.Next()]: a room seen before has a higher stream
    position and takes priority, so later rows of that room are dropped
    before they are decoded. *)
Fixpoint scan_rows (rows : list (string * string * bool))
    (result retired : gmap string HeaderedEvent)
  : fallible (gmap string HeaderedEvent * gmap string HeaderedEvent) :=
  match rows with
  | [] => Ok (result, retired)
  | (roomID, eventJSON, deleted) :: rows' =>
      if bool_decide (is_Some (retired !! roomID))
         || bool_decide (is_Some (result !! roomID))
      then scan_rows rows' result retired
      else match json_Unmarshal eventJSON with
           | Err e => Err e
           | Ok event =>
               if deleted
               then scan_rows rows' result (<[roomID := event]> retired)
               else scan_rows rows' (<[roomID := event]> result) retired
           end
  end.

(** Returns the active invites and the retired invites of the target
    user in the range, each keyed by room id; both maps are nil when an
    error is returned. *)
Definition SelectInviteEventsInRange (ctx : Context) (targetUserID : string)
    (r : Range)
  : Go (fallible (gmap string HeaderedEvent * gmap string HeaderedEvent)) :=
  rows ← QueryContext ctx (selectInviteEventsInRangeSQL targetUserID (Low r) (High r));
  match rows with
  | Err e => mret (Err e)
  | Ok rows => mret (scan_rows rows ∅ ∅)
  end.

(** A run of inserts in one transaction, stopping at nothing: every
    call's result is recorded. *)
Fixpoint insert_all (ctx : Context) (events : list HeaderedEvent)
  : Go (list (StreamPosition * option error)) :=
  match events with
  | [] => mret []
  | e :: events' =>
      r ← InsertInviteEvent ctx e;
      rs ← insert_all ctx events';
      mret (r :: rs)
  end.

(** The rows that a run of inserts starting at position [p] writes, one
    for every event that has a state key and encodes. *)
Fixpoint written_rows (p : Z) (events : list HeaderedEvent) : list InviteRow :=
  match events with
  | [] => []
  | e :: events' =>
      match StateKey e, json_Marshal e with
      | Some k, Ok j => invite_row p e k j :: written_rows (p + 1) events'
      | _, _ => written_rows (p + 1) events'
      end
  end.

Definition insertable (e : HeaderedEvent) : Prop :=
  is_Some (StateKey e) ∧ ∃ j, json_Marshal e = Ok j.

(** A row is filed when it decodes and its event sits under its room id
    in the retired map if the row is flagged deleted, and in the result
    map if it is not. *)
Definition filed (row : InviteRow) (result retired : gmap string HeaderedEvent) : Prop :=
  ∃ event, json_Unmarshal (headered_event_json row) = Ok event ∧
    if deleted row
    then retired !! room_id row = Some event ∧ result !! room_id row = None
    else result !! room_id row = Some event ∧ retired !! room_id row = None.

End InviteEvents.

(** A small codec for running the methods on examples: three lines, the
    last one empty for a nil state key and prefixed with "=" otherwise. *)
Module Codec.

Definition nl : string := String (Ascii.ascii_of_nat 10) EmptyString.

Definition text (e : HeaderedEvent) : string :=
  (RoomID e +:+ nl +:+ EventID e +:+ nl +:+
   match StateKey e with None => EmptyString | Some k => "=" +:+ k end)%string.

Definition encode (e : HeaderedEvent) : fallible string := Ok (text e).

Fixpoint cut_line (s : string) : option (string * string) :=
  match s with
  | EmptyString => None
  | String c s' =>
      if bool_decide (c = Ascii.ascii_of_nat 10) then Some (EmptyString, s')
      else match cut_line s' with
           | Some (l, rest) => Some (String c l, rest)
           | None => None
           end
  end.

Definition decode (s : string) : fallible HeaderedEvent :=
  match cut_line s with
  | Some (room, s1) =>
      match cut_line s1 with
      | Some (ev, EmptyString) => Ok (mkEvent room ev None)
      | Some (ev, String _ k) => Ok (mkEvent room ev (Some k))
      | None => Err ErrJSON
      end
  | None => Err ErrJSON
  end.

(** An encoder that refuses every event. *)
Definition refuse (e : HeaderedEvent) : fallible string := Err ErrJSON.

(** An encoder that refuses events without a state key. *)
Definition strict (e : HeaderedEvent) : fallible string :=
  match StateKey e with
  | None => Err ErrJSON
  | Some _ => encode e
  end.

End Codec.

(** ** Sample events and stores *)

Module Sample.

Definition invite1 : HeaderedEvent := mkEvent "!a" "$1" (Some "@u").
Definition invite2 : HeaderedEvent := mkEvent "!b" "$2" (Some "@u").
(** A later invite to the room of [invite1]. *)
Definition invite3 : HeaderedEvent := mkEvent "!a" "$3" (Some "@u").
(** Not a state event: its state key is nil. *)
Definition message : HeaderedEvent := mkEvent "!a" "$4" None.

(** A transaction on a freshly created database. *)
Definition fresh : Tx := Begin inviteEventsSchema.

(** The transaction after the three invites went in. *)
Definition three : Tx :=
  state_of (insert_all Codec.encode Background [invite1; invite2; invite3] fresh).

(** ... and after the first of them was retired. *)
Definition three_retired : Tx :=
  state_of (DeleteInviteEvent Background "$1" three).

(** The row of [invite1] as it was written, and as the retirement left it. *)
Definition row1 : InviteRow := invite_row 1 invite1 "@u" (Codec.text invite1).
Definition row1_retired : InviteRow := mark_deleted 4 row1.

(** The two maps that a scan of positions (0, 4] for "@u" returns then. *)
Definition scanned : gmap string HeaderedEvent * gmap string HeaderedEvent :=
  match SelectInviteEventsInRange Codec.decode Background "@u" (mkRange 0 4)
          three_retired with
  | Returns (Ok maps) _ => maps
  | _ => (∅, ∅)
  end.

End Sample.

(** ** Sequences of calls on one transaction *)

(** A writing call on the invite table, with the context it is given. *)
Inductive Call : Type :=
  | CallInsert (ctx : Context) (inviteEvent : HeaderedEvent)
  | CallDelete (ctx : Context) (inviteEventID : string).

(** The transaction after one call, whatever the call's outcome. *)
Definition after_call (json_Marshal : HeaderedEvent → fallible string)
    (txn : Tx) (c : Call) : Tx :=
  match c with
  | CallInsert ctx e => state_of (InsertInviteEvent json_Marshal ctx e txn)
  | CallDelete ctx eid => state_of (DeleteInviteEvent ctx eid txn)
  end.

Definition after_calls (json_Marshal : HeaderedEvent → fallible string)
    (calls : list Call) (txn : Tx) : Tx :=
  foldl (after_call json_Marshal) txn calls.

(** The outcome of one call. *)
Definition call_outcome (json_Marshal : HeaderedEvent → fallible string)
    (txn : Tx) (c : Call) : Outcome (StreamPosition * option error) :=
  match c with
  | CallInsert ctx e => InsertInviteEvent json_Marshal ctx e txn
  | CallDelete ctx eid => DeleteInviteEvent ctx eid txn
  end.

(** What the UPDATE of a retirement makes of one row. *)
Definition retire_row (a1 : Z) (a2 : string) (r : InviteRow) : InviteRow :=
  if is_active_event a2 r then mark_deleted a1 r else r.

(** ** Opening the federation database (Postgres) *)

Module FederationStorage.

(** The fallible steps of [NewDatabase]: [sqlutil.Open], the ten table
    constructors and [m.RunDeltas]. The steps themselves live in other
    files; [NewDatabase] only orders them and passes their errors on. *)
Inductive Step : Type :=
  | Open
  | NewPostgresJoinedHostsTable
  | NewPostgresQueuePDUsTable
  | NewPostgresQueueEDUsTable
  | NewPostgresQueueJSONTable
  | NewPostgresBlacklistTable
  | NewPostgresInboundPeeksTable
  | NewPostgresOutboundPeeksTable
  | NewPostgresNotaryServerKeysTable
  | NewPostgresNotaryServerKeysMetadataTable
  | NewPostgresServerSigningKeysTable
  | RunDeltas.

Global Instance Step_eq_dec : EqDecision Step.
Proof. solve_decision. Defined.

(** The order in which the source takes the steps. *)
Definition steps_in_order : list Step :=
  [Open; NewPostgresJoinedHostsTable; NewPostgresQueuePDUsTable;
   NewPostgresQueueEDUsTable; NewPostgresQueueJSONTable; NewPostgresBlacklistTable;
   NewPostgresInboundPeeksTable; NewPostgresOutboundPeeksTable;
   NewPostgresNotaryServerKeysTable; NewPostgresNotaryServerKeysMetadataTable;
   NewPostgresServerSigningKeysTable; RunDeltas].

(** What a step hands back on success: the handle or statement set that
    this step made. *)
Inductive Handle : Type := MadeBy (s : Step).

Inductive Writer : Type := DummyWriter.

(** [shared.Database] as [NewDatabase] fills it in. *)
Record SharedDatabase : Type := mkShared {
  DB : Handle;
  ServerName : string;
  Cache : string;
  Writer_ : Writer;
  FederationJoinedHosts : Handle;
  FederationQueuePDUs : Handle;
  FederationQueueEDUs : Handle;
  FederationQueueJSON : Handle;
  FederationBlacklist : Handle;
  FederationInboundPeeks : Handle;
  FederationOutboundPeeks : Handle;
  NotaryServerKeysJSON : Handle;
  NotaryServerKeysMetadata : Handle;
  ServerSigningKeys : Handle
}.

Record Database : Type := mkDatabase {
  Database_ : SharedDatabase;
  db : Handle;
  writer : Writer
}.

(** A computation that takes steps: the steps taken so far are logged. *)
Definition Setup (A : Type) : Type := list Step → A * list Step.

Global Instance Setup_ret : MRet Setup := λ A a log, (a, log).
Global Instance Setup_bind : MBind Setup := λ A B k m log,
  let '(a, log') := m log in k a log'.

Section NewDatabase.

(** How each step ends: with nil, or with an error, given by its message. *)
Variable failure : Step → option string.

Definition take_step (s : Step) : Setup (Handle * option string) :=
  λ log, ((MadeBy s, failure s), log ++ [s]).

(** [fmt.Errorf("<name>: %s", err)] *)
Definition Errorf (name : string) (err : string) : string :=
  (name +:+ ": " +:+ err)%string.

Definition NewDatabase (cache : string) (serverName : string)
  : Setup (option Database * option string) :=
  '(d_db, err) ← take_step Open;
  match err with Some e => mret (None, Some e) | None =>
  let d_writer := DummyWriter in
  '(joinedHosts, err) ← take_step NewPostgresJoinedHostsTable;
  match err with Some e => mret (None, Some e) | None =>
  '(queuePDUs, err) ← take_step NewPostgresQueuePDUsTable;
  match err with Some e => mret (None, Some e) | None =>
  '(queueEDUs, err) ← take_step NewPostgresQueueEDUsTable;
  match err with Some e => mret (None, Some e) | None =>
  '(queueJSON, err) ← take_step NewPostgresQueueJSONTable;
  match err with Some e => mret (None, Some e) | None =>
  '(blacklist, err) ← take_step NewPostgresBlacklistTable;
  match err with Some e => mret (None, Some e) | None =>
  '(inboundPeeks, err) ← take_step NewPostgresInboundPeeksTable;
  match err with Some e => mret (None, Some e) | None =>
  '(outboundPeeks, err) ← take_step NewPostgresOutboundPeeksTable;
  match err with Some e => mret (None, Some e) | None =>
  '(notaryJSON, err) ← take_step NewPostgresNotaryServerKeysTable;
  match err with
  | Some e => mret (None, Some (Errorf "NewPostgresNotaryServerKeysTable" e))
  | None =>
  '(notaryMetadata, err) ← take_step NewPostgresNotaryServerKeysMetadataTable;
  match err with
  | Some e => mret (None, Some (Errorf "NewPostgresNotaryServerKeysMetadataTable" e))
  | None =>
  '(serverSigningKeys, err) ← take_step NewPostgresServerSigningKeysTable;
  match err with Some e => mret (None, Some e) | None =>
  '(_, err) ← take_step RunDeltas;
  match err with Some e => mret (None, Some e) | None =>
  mret (Some {| db := d_db; writer := d_writer;
                Database_ := {|
                  DB := d_db;
                  ServerName := serverName;
                  Cache := cache;
                  Writer_ := d_writer;
                  FederationJoinedHosts := joinedHosts;
                  FederationQueuePDUs := queuePDUs;
                  FederationQueueEDUs := queueEDUs;
                  FederationQueueJSON := queueJSON;
                  FederationBlacklist := blacklist;
                  FederationInboundPeeks := inboundPeeks;
                  FederationOutboundPeeks := outboundPeeks;
                  NotaryServerKeysJSON := notaryJSON;
                  NotaryServerKeysMetadata := notaryMetadata;
                  ServerSigningKeys := serverSigningKeys |} |}, None)
  end end end end end end end end end end end end.

(** The error as [NewDatabase] reports it for a step: the two notary
    constructors get their name put in front. *)
Definition reported (s : Step) (err : string) : string :=
  match s with
  | NewPostgresNotaryServerKeysTable => Errorf "NewPostgresNotaryServerKeysTable" err
  | NewPostgresNotaryServerKeysMetadataTable =>
      Errorf "NewPostgresNotaryServerKeysMetadataTable" err
  | _ => err
  end.

(** The steps up to and including the first one that fails. *)
Fixpoint until_failure (steps : list Step) : list Step * option (Step * string) :=
  match steps with
  | [] => ([], None)
  | s :: steps' =>
      match failure s with
      | Some err => ([s], Some (s, err))
      | None => let '(taken, f) := until_failure steps' in (s :: taken, f)
      end
  end.

End NewDatabase.

(** A run in which the blacklist table cannot be made, and one in which
    the notary metadata table cannot. *)
Definition blacklist_fails (s : Step) : option string :=
  if decide (s = NewPostgresBlacklistTable) then Some "relation exists"%string else None.
Definition notary_metadata_fails (s : Step) : option string :=
  if decide (s = NewPostgresNotaryServerKeysMetadataTable)
  then Some "no space"%string else None.

End FederationStorage.

(** ** The destination ledger *)

Module Ledger.

(** Modelled from the spec: the blacklist table and the failure statistics
    of the federation sender are opened by [NewPostgresBlacklistTable] in
    [NewDatabase], but their files are not among the sources.  The spec
    gives the ledger as the relation "destination_ledger(destination,
    failure_count, next_retry_at, blacklisted)" with the contract
    "RecordFailure(destination) → (newBackoff, blacklisted bool);
    RecordSuccess(destination); IsBlacklisted(destination) → bool;
    ListBlacklisted() → set of destination" and the control
    "ClearBlacklist(destination)". *)
Record Entry : Type := mkEntry {
  failure_count : nat;
  next_retry_at : option Z;
  blacklisted : bool
}.

(** Modelled from the spec: "a configured failure-count threshold", a
    "base delay doubling, capped at a maximum interval". *)
Record Config : Type := mkConfig {
  threshold : nat;
  base_delay : Z;
  max_delay : Z
}.

(** Modelled from the spec: a destination is "created on first pending
    delivery"; before that it has no failures, no backoff and no
    blacklist. *)
Definition unseen : Entry :=
  {| failure_count := 0; next_retry_at := None; blacklisted := false |}.

Definition entry (l : gmap string Entry) (d : string) : Entry :=
  default unseen (l !! d).

(** Modelled from the spec: "failure count increments an exponential delay
    (base delay doubling, capped at a maximum interval)"; after one
    failure the retry is "scheduled after the base backoff interval". *)
Definition backoff (cfg : Config) (count : nat) : Z :=
  Z.min (max_delay cfg) (base_delay cfg * 2 ^ (Z.of_nat count - 1)).

(** Modelled from the spec: "RecordFailure(destination) → (newBackoff,
    blacklisted bool)"; "after a configured failure-count threshold the
    destination transitions to blacklisted". *)
Definition RecordFailure (cfg : Config) (now : Z) (d : string) (l : gmap string Entry)
  : (Z * bool) * gmap string Entry :=
  let e := entry l d in
  let count := S (failure_count e) in
  let delay := backoff cfg count in
  let black := blacklisted e || bool_decide (threshold cfg ≤ count)%nat in
  ((delay, black),
   <[d := {| failure_count := count; next_retry_at := Some (now + delay);
             blacklisted := black |}]> l).

(** Modelled from the spec: "Success resets failure count to zero and
    clears any backoff, but does NOT auto-clear a blacklist". *)
Definition RecordSuccess (d : string) (l : gmap string Entry) : gmap string Entry :=
  <[d := {| failure_count := 0; next_retry_at := None;
            blacklisted := blacklisted (entry l d) |}]> l.

Definition IsBlacklisted (d : string) (l : gmap string Entry) : bool :=
  blacklisted (entry l d).

Definition ListBlacklisted (l : gmap string Entry) : gset string :=
  dom (filter (λ kv, blacklisted kv.2 = true) l).

(** Modelled from the spec: the destination "may be reset when an operator
    removes a blacklist". *)
Definition ClearBlacklist (d : string) (l : gmap string Entry) : gmap string Entry :=
  <[d := unseen]> l.

(** Modelled from the spec: "the store is authoritative, in-memory state is
    only a performance accelerant"; "state is derived from the ledger/queue
    on restart, not preserved as in-memory-only flags".  A process holds
    the persisted ledger and, in memory, the destinations being drained. *)
Record Process : Type := mkProcess {
  destination_ledger : gmap string Entry;
  draining : gset string
}.

Definition Restart (p : Process) : Process :=
  {| destination_ledger := destination_ledger p; draining := ∅ |}.

Inductive Op : Type :=
  | OpRecordFailure (d : string) (now : Z)
  | OpRecordSuccess (d : string)
  | OpClearBlacklist (d : string)
  | OpRestart.

Definition on_ledger (f : gmap string Entry → gmap string Entry) (p : Process) : Process :=
  {| destination_ledger := f (destination_ledger p); draining := draining p |}.

Definition step (cfg : Config) (p : Process) (op : Op) : Process :=
  match op with
  | OpRecordFailure d now => on_ledger (λ l, (RecordFailure cfg now d l).2) p
  | OpRecordSuccess d => on_ledger (RecordSuccess d) p
  | OpClearBlacklist d => on_ledger (ClearBlacklist d) p
  | OpRestart => Restart p
  end.

Definition run (cfg : Config) (ops : list Op) (p : Process) : Process :=
  foldl (step cfg) p ops.

(** A configuration and a process for examples: blacklist at the third
    failure, delays of 5, 10, 20, ... capped at 60. *)
Definition sample_config : Config :=
  {| threshold := 3; base_delay := 5; max_delay := 60 |}.

Definition started : Process := {| destination_ledger := ∅; draining := ∅ |}.

End Ledger.


(** ** Statements and the counter *)

Lemma nextInviteID_live txn :
  done txn = false →
  nextInviteID Background txn =
    Returns (stream_id (view txn) + 1, None)
            {| done := false; view := bump_stream_id (view txn) |}.
Proof.
  intros Hd. unfold nextInviteID. go_unfold. rewrite Hd. simpl. reflexivity.
Qed.

Lemma nextInviteID_done ctx txn :
  done txn = true → nextInviteID ctx txn = Returns (0, Some ErrTxDone) txn.
Proof.
  intros Hd. unfold nextInviteID. go_unfold. rewrite Hd. reflexivity.
Qed.

Lemma nextInviteID_canceled txn :
  done txn = false → nextInviteID Canceled txn = Returns (0, Some ErrCanceled) txn.
Proof.
  intros Hd. unfold nextInviteID. go_unfold. rewrite Hd. reflexivity.
Qed.

(** The counter never panics, and hands out a position exactly when the
    transaction is open and the context alive. *)
Lemma nextInviteID_cases ctx txn :
  (done txn = false ∧ ctx = Background ∧
   nextInviteID ctx txn =
     Returns (stream_id (view txn) + 1, None)
             {| done := false; view := bump_stream_id (view txn) |})
  ∨ (∃ e, (done txn = true ∨ ctx = Canceled) ∧
          nextInviteID ctx txn = Returns (0, Some e) txn).
Proof.
  destruct (done txn) eqn:Hd.
  - right. exists ErrTxDone. split; [by left | by apply nextInviteID_done].
  - destruct ctx.
    + left. split_and!; [done | done | by apply nextInviteID_live].
    + right. exists ErrCanceled. split; [by right | by apply nextInviteID_canceled].
Qed.

Lemma sql_insert_fresh row rows :
  id row ∉ ids rows → sql_insert row rows = Ok (rows ++ [row]).
Proof. intros H. unfold sql_insert. by rewrite decide_False. Qed.

Lemma sql_insert_taken row rows :
  id row ∈ ids rows → sql_insert row rows = Err ErrConstraint.
Proof. intros H. unfold sql_insert. by rewrite decide_True. Qed.

Lemma sql_update_no_hit where' set seen rest :
  Forall (λ r, where' r = false) rest →
  sql_update where' set seen rest = Ok (seen ++ rest).
Proof.
  intros H. revert seen. induction H as [|r rest Hr _ IH]; intros seen; simpl.
  - by rewrite app_nil_r.
  - rewrite Hr, IH. by rewrite <- app_assoc.
Qed.

Lemma sql_update_one_hit where' set seen l1 r l2 :
  Forall (λ x, where' x = false) l1 →
  Forall (λ x, where' x = false) l2 →
  where' r = true →
  id (set r) ∉ ids (seen ++ l1 ++ l2) →
  sql_update where' set seen (l1 ++ r :: l2) = Ok (seen ++ l1 ++ set r :: l2).
Proof.
  intros H1 H2 Hr Hfresh. revert seen Hfresh.
  induction H1 as [|x l1 Hx _ IH]; intros seen Hfresh; simpl.
  - rewrite Hr. rewrite decide_False by (intros [_ ?]; done).
    rewrite sql_update_no_hit by done. by rewrite <- app_assoc.
  - rewrite Hx. rewrite IH.
    + by rewrite <- app_assoc.
    + by rewrite <- app_assoc.
Qed.

Lemma minted_fresh t :
  positions_minted t → stream_id t + 1 ∉ ids (syncapi_invite_events t).
Proof.
  unfold positions_minted, ids. intros H Hin.
  apply list_elem_of_fmap in Hin as (r & Heq & Hr).
  rewrite Forall_forall in H. specialize (H r Hr). lia.
Qed.

(** ** What the insert and the delete do on an open transaction *)

Section InviteEventsFacts.

Variable json_Marshal : HeaderedEvent → fallible string.
Variable json_Unmarshal : string → fallible HeaderedEvent.

Lemma InsertInviteEvent_live e txn :
  done txn = false →
  InsertInviteEvent json_Marshal Background e txn =
    let p := stream_id (view txn) + 1 in
    let txn1 := {| done := false; view := bump_stream_id (view txn) |} in
    match json_Marshal e with
    | Err err => Returns (p, Some err) txn1
    | Ok j =>
        match StateKey e with
        | None => Panics txn1
        | Some k =>
            match sql_insert (invite_row p e k j) (syncapi_invite_events (view txn)) with
            | Ok rows =>
                Returns (p, None)
                  {| done := false;
                     view := {| stream_id := p; syncapi_invite_events := rows |} |}
            | Err err => Returns (p, Some err) txn1
            end
        end
    end.
Proof.
  intros Hd. unfold InsertInviteEvent.
  unfold mbind at 1. unfold Go_bind. rewrite (nextInviteID_live _ Hd).
  simpl. destruct (json_Marshal e) as [j|err]; [|reflexivity].
  destruct (StateKey e) as [k|]; [|reflexivity].
  go_unfold. simpl. unfold insertInviteEventSQL, invite_row. simpl.
  destruct (sql_insert _ _); reflexivity.
Qed.

Lemma InsertInviteEvent_stopped ctx e txn :
  done txn = true ∨ ctx = Canceled →
  ∃ err, InsertInviteEvent json_Marshal ctx e txn = Returns (0, Some err) txn.
Proof.
  intros H. destruct (nextInviteID_cases ctx txn) as [(Hd & Hc & _)|(err & _ & Heq)].
  - destruct H; congruence.
  - exists err. unfold InsertInviteEvent. unfold mbind at 1. unfold Go_bind.
    rewrite Heq. reflexivity.
Qed.

Lemma InsertInviteEvent_ok e txn k j :
  done txn = false → positions_minted (view txn) →
  json_Marshal e = Ok j → StateKey e = Some k →
  InsertInviteEvent json_Marshal Background e txn =
    Returns (stream_id (view txn) + 1, None)
      {| done := false;
         view := {| stream_id := stream_id (view txn) + 1;
                    syncapi_invite_events :=
                      syncapi_invite_events (view txn)
                      ++ [invite_row (stream_id (view txn) + 1) e k j] |} |}.
Proof.
  intros Hd Hm Hj Hk. rewrite InsertInviteEvent_live by done. simpl.
  rewrite Hj, Hk. rewrite sql_insert_fresh; [done|]. simpl. by apply minted_fresh.
Qed.

(** A call that reports success did mint, encode and write. *)
Lemma InsertInviteEvent_success_inv ctx e txn p txn' :
  InsertInviteEvent json_Marshal ctx e txn = Returns (p, None) txn' →
  done txn = false ∧ ctx = Background ∧ p = stream_id (view txn) + 1 ∧
  ∃ k j, StateKey e = Some k ∧ json_Marshal e = Ok j ∧
         (p ∉ ids (syncapi_invite_events (view txn))) ∧
         txn' = {| done := false;
                   view := {| stream_id := p;
                              syncapi_invite_events :=
                                syncapi_invite_events (view txn)
                                ++ [invite_row p e k j] |} |}.
Proof.
  intros H. destruct (done txn) eqn:Hd.
  { destruct (InsertInviteEvent_stopped ctx e txn) as [err Herr]; [by left|].
    congruence. }
  destruct ctx.
  2:{ destruct (InsertInviteEvent_stopped Canceled e txn) as [err Herr]; [by right|].
      congruence. }
  rewrite InsertInviteEvent_live in H by done. simpl in H.
  destruct (json_Marshal e) as [j|err]; [|congruence].
  destruct (StateKey e) as [k|]; [|congruence].
  unfold sql_insert in H. case_decide as Hin; [congruence|].
  inversion H; subst. split_and!; try done. exists k, j. done.
Qed.

End InviteEventsFacts.

Lemma DeleteInviteEvent_live eid txn :
  done txn = false →
  DeleteInviteEvent Background eid txn =
    let p := stream_id (view txn) + 1 in
    match sql_update (is_active_event eid) (mark_deleted p) []
                     (syncapi_invite_events (view txn)) with
    | Ok rows =>
        Returns (p, None)
          {| done := false;
             view := {| stream_id := p; syncapi_invite_events := rows |} |}
    | Err err =>
        Returns (p, Some err) {| done := false; view := bump_stream_id (view txn) |}
    end.
Proof.
  intros Hd. unfold DeleteInviteEvent.
  unfold mbind at 1. unfold Go_bind. rewrite (nextInviteID_live _ Hd).
  go_unfold. simpl. unfold deleteInviteEventSQL. simpl.
  destruct (sql_update _ _ _ _); reflexivity.
Qed.

Lemma DeleteInviteEvent_stopped ctx eid txn :
  done txn = true ∨ ctx = Canceled →
  ∃ err, DeleteInviteEvent ctx eid txn = Returns (0, Some err) txn.
Proof.
  intros H. destruct (nextInviteID_cases ctx txn) as [(Hd & Hc & _)|(err & _ & Heq)].
  - destruct H; congruence.
  - exists err. unfold DeleteInviteEvent. unfold mbind at 1. unfold Go_bind.
    rewrite Heq. reflexivity.
Qed.

(** ** ORDER BY id DESC *)

Lemma insert_desc_perm r rows : insert_desc r rows ≡ₚ r :: rows.
Proof.
  induction rows as [|x rows IH]; simpl; [done|].
  case_decide; [done|]. rewrite IH. apply Permutation_swap.
Qed.

Lemma order_by_id_desc_perm rows : order_by_id_desc rows ≡ₚ rows.
Proof.
  induction rows as [|x rows IH]; simpl; [done|].
  rewrite insert_desc_perm. by rewrite IH.
Qed.

Lemma insert_desc_sorted r rows :
  StronglySorted id_desc rows → StronglySorted id_desc (insert_desc r rows).
Proof.
  induction rows as [|x rows IH]; simpl; intros Hs.
  - repeat constructor.
  - apply StronglySorted_cons in Hs as [Hx Hs]. case_decide as Hlt.
    + apply StronglySorted_cons. split.
      * constructor; [unfold id_desc; lia|].
        eapply Forall_impl; [exact Hx|]. unfold id_desc. intros y Hy. simpl in *. lia.
      * apply StronglySorted_cons. done.
    + apply StronglySorted_cons. split; [|by apply IH].
      rewrite insert_desc_perm. constructor; [unfold id_desc; lia|done].
Qed.

Lemma order_by_id_desc_sorted rows : StronglySorted id_desc (order_by_id_desc rows).
Proof.
  induction rows as [|x rows IH]; simpl; [constructor|]. by apply insert_desc_sorted.
Qed.

(** A row above every row scanned so far comes out first. *)
Lemma foldr_insert_desc_top r acc rows :
  Forall (λ x, id x < id r) rows →
  foldr insert_desc (r :: acc) rows = r :: foldr insert_desc acc rows.
Proof.
  induction 1 as [|x rows Hx _ IH]; simpl; [done|].
  rewrite IH. simpl. rewrite decide_False by lia. done.
Qed.

Lemma order_by_id_desc_snoc rows r :
  Forall (λ x, id x < id r) rows →
  order_by_id_desc (rows ++ [r]) = r :: order_by_id_desc rows.
Proof.
  intros H. unfold order_by_id_desc. rewrite foldr_app. simpl.
  by apply foldr_insert_desc_top.
Qed.

(** Rows stored in ascending id order are read back in reverse. *)
Lemma order_by_id_desc_ascending rows :
  StronglySorted (λ a b, id a < id b) rows →
  order_by_id_desc rows = reverse rows.
Proof.
  induction rows as [|x rows IH] using rev_ind; intros Hs; [done|].
  apply StronglySorted_app in Hs as (Hlt & Hs1 & _).
  rewrite order_by_id_desc_snoc.
  - rewrite reverse_snoc. f_equal. by apply IH.
  - apply Forall_forall. intros y Hy. apply Hlt; [done|]. apply list_elem_of_here.
Qed.

Lemma range_rows_perm a1 a2 a3 t :
  range_rows a1 a2 a3 t ≡ₚ filter (in_range a1 a2 a3) (syncapi_invite_events t).
Proof. apply order_by_id_desc_perm. Qed.

Lemma elem_of_range_rows a1 a2 a3 t r :
  r ∈ range_rows a1 a2 a3 t ↔
  r ∈ syncapi_invite_events t ∧ target_user_id r = a1 ∧ a2 < id r ∧ id r ≤ a3.
Proof.
  rewrite range_rows_perm. rewrite list_elem_of_filter. unfold in_range. tauto.
Qed.

Lemma filter_none {A} (P : A → Prop) `{∀ x, Decision (P x)} (l : list A) :
  Forall (λ x, ¬ P x) l → filter P l = [].
Proof.
  induction 1 as [|x l Hx _ IH]; [done|]. by rewrite filter_cons_False.
Qed.

Lemma filter_agree {A} (P Q : A → Prop) `{∀ x, Decision (P x)} `{∀ x, Decision (Q x)}
    (l : list A) :
  Forall (λ x, P x ↔ Q x) l → filter P l = filter Q l.
Proof.
  induction 1 as [|x l Hx _ IH]; [done|].
  destruct (decide (P x)) as [HP|HP].
  - rewrite !filter_cons_True by tauto. by rewrite IH.
  - rewrite !filter_cons_False by tauto. done.
Qed.

Lemma filter_ascending (P : InviteRow → Prop) `{∀ x, Decision (P x)} rows :
  StronglySorted (λ a b, id a < id b) rows →
  StronglySorted (λ a b, id a < id b) (filter P rows).
Proof.
  induction rows as [|x rows IH]; intros Hs; [constructor|].
  apply StronglySorted_cons in Hs as [Hx Hs].
  destruct (decide (P x)).
  - rewrite filter_cons_True by done. apply StronglySorted_cons. split; [|by apply IH].
    apply Forall_forall. intros y Hy. apply list_elem_of_filter in Hy as [_ Hy].
    rewrite Forall_forall in Hx. by apply Hx.
  - rewrite filter_cons_False by done. by apply IH.
Qed.

(** ** A run of inserts *)

Section InsertRuns.

Variable json_Marshal : HeaderedEvent → fallible string.

Lemma written_rows_ids p events :
  Forall (insertable json_Marshal) events →
  ids (written_rows json_Marshal p events) = seqZ p (Z.of_nat (length events)).
Proof.
  intros H. revert p. induction H as [|e events [[k Hk] [j Hj]] _ IH]; intros p.
  - done.
  - cbn [written_rows length]. rewrite Hk, Hj. unfold ids in *. cbn [fmap list_fmap].
    rewrite IH. rewrite (seqZ_cons p) by lia. simpl. do 2 f_equal; lia.
Qed.

Lemma written_rows_events p events :
  Forall (insertable json_Marshal) events →
  event_id <$> written_rows json_Marshal p events = EventID <$> events.
Proof.
  intros H. revert p. induction H as [|e events [[k Hk] [j Hj]] _ IH]; intros p.
  - done.
  - cbn [written_rows]. rewrite Hk, Hj. cbn [fmap list_fmap]. by rewrite IH.
Qed.

Lemma written_rows_bounds p events :
  Forall (λ r, p ≤ id r < p + Z.of_nat (length events)) (written_rows json_Marshal p events).
Proof.
  revert p. induction events as [|e events IH]; intros p; [constructor|].
  assert (Htl : Forall (λ r, p ≤ id r < p + Z.of_nat (length (e :: events)))
                  (written_rows json_Marshal (p + 1) events)).
  { eapply Forall_impl; [apply IH|]. intros r Hr. cbv beta in Hr. cbn [length]. lia. }
  cbn [written_rows].
  destruct (StateKey e), (json_Marshal e); try done.
  constructor; [|done]. cbn [length]. simpl. lia.
Qed.

Lemma written_rows_ascending p events :
  StronglySorted (λ a b, id a < id b) (written_rows json_Marshal p events).
Proof.
  revert p. induction events as [|e events IH]; intros p; [constructor|].
  cbn [written_rows].
  destruct (StateKey e), (json_Marshal e); try apply IH.
  apply StronglySorted_cons. split; [|apply IH].
  eapply Forall_impl; [apply (written_rows_bounds (p + 1) events)|].
  intros r Hr. cbv beta in Hr. simpl. lia.
Qed.

Lemma insert_all_insertable events txn :
  done txn = false → positions_minted (view txn) →
  Forall (insertable json_Marshal) events →
  insert_all json_Marshal Background events txn =
    Returns ((λ p, (p, None)) <$> seqZ (stream_id (view txn) + 1) (Z.of_nat (length events)))
      {| done := false;
         view := {| stream_id := stream_id (view txn) + Z.of_nat (length events);
                    syncapi_invite_events :=
                      syncapi_invite_events (view txn)
                      ++ written_rows json_Marshal (stream_id (view txn) + 1) events |} |}.
Proof.
  intros Hd Hm H. revert txn Hd Hm.
  induction H as [|e events [[k Hk] [j Hj]] _ IH]; intros txn Hd Hm.
  - destruct txn as [d [c rows]]. simpl in *. subst d.
    unfold mret, Go_ret. rewrite app_nil_r, Z.add_0_r. done.
  - cbn [insert_all]. unfold mbind at 1. unfold Go_bind.
    rewrite (InsertInviteEvent_ok json_Marshal e txn k j) by done.
    unfold mbind at 1. unfold Go_bind. rewrite IH; cycle 1.
    + done.
    + unfold positions_minted. simpl. apply Forall_app. split.
      * eapply Forall_impl; [exact Hm|]. intros r Hr. cbv beta in Hr. simpl. lia.
      * constructor; [simpl; lia|constructor].
    + unfold mret, Go_ret. cbn [view stream_id syncapi_invite_events length written_rows].
      rewrite Hk, Hj. rewrite <- app_assoc. cbn [app].
      rewrite (seqZ_cons (stream_id (view txn) + 1)) by lia.
      cbn [fmap list_fmap].
      replace (Z.succ (stream_id (view txn) + 1)) with (stream_id (view txn) + 1 + 1) by lia.
      replace (Z.pred (Z.of_nat (S (length events)))) with (Z.of_nat (length events)) by lia.
      replace (stream_id (view txn) + 1 + Z.of_nat (length events))
        with (stream_id (view txn) + Z.of_nat (S (length events))) by lia.
      done.
Qed.

(** After the run, a range read over the positions just handed out walks
    the new rows of the user from the last written to the first. *)
Lemma range_rows_after_run a1 c rows events :
  Forall (λ r, id r ≤ c) rows →
  range_rows a1 c (c + Z.of_nat (length events))
    {| stream_id := c + Z.of_nat (length events);
       syncapi_invite_events := rows ++ written_rows json_Marshal (c + 1) events |}
  = reverse (filter (λ r, target_user_id r = a1) (written_rows json_Marshal (c + 1) events)).
Proof.
  intros Hold. unfold range_rows. cbn [syncapi_invite_events].
  rewrite filter_app. rewrite (filter_none _ rows); cycle 1.
  { eapply Forall_impl; [exact Hold|]. unfold in_range. intros r Hr. cbv beta in Hr. lia. }
  cbn [app].
  rewrite (filter_agree (in_range a1 c (c + Z.of_nat (length events)))
             (λ r, target_user_id r = a1)); cycle 1.
  { eapply Forall_impl; [apply (written_rows_bounds (c + 1) events)|].
    unfold in_range. intros r Hr. cbv beta in Hr. split; [tauto|]. intros ?.
    split; [done|lia]. }
  apply order_by_id_desc_ascending. apply filter_ascending, written_rows_ascending.
Qed.

End InsertRuns.

(** ** Inserted positions and the order of a range read *)

(** C1, as stated, fails: two invites of one user go in at positions 1 and
    2, and the range read over (0, 2] walks them as "$2" and then "$1",
    which is not the order in which they were inserted. *)
Lemma C1_range_read_not_in_insertion_order :
  ∃ txn,
    insert_all Codec.encode Background [Sample.invite1; Sample.invite2] Sample.fresh
      = Returns [(1, None); (2, None)] txn ∧
    event_id <$> range_rows "@u" 0 2 (view txn) = ["$2"; "$1"]%string ∧
    event_id <$> range_rows "@u" 0 2 (view txn)
      ≠ EventID <$> [Sample.invite1; Sample.invite2].
Proof.
  eexists. split; [vm_compute; reflexivity|].
  split; [vm_compute; reflexivity|]. vm_compute. discriminate.
Qed.

(** C1, amended: for every run of inserts on an open transaction, each of
    an event that has a state key and encodes, the positions handed out are
    the consecutive integers after the counter (strictly increasing, no
    gap), the rows are appended to the table in that order, and a range
    read over exactly these positions walks the new rows of any one user
    in the reverse of the order in which they were inserted. *)
Theorem C1_positions_consecutive_read_reversed
    (json_Marshal : HeaderedEvent → fallible string) (txn : Tx)
    (events : list HeaderedEvent) :
  done txn = false →
  positions_minted (view txn) →
  Forall (insertable json_Marshal) events →
  ∃ txn',
    insert_all json_Marshal Background events txn
      = Returns ((λ p, (p, None)) <$>
                   seqZ (stream_id (view txn) + 1) (Z.of_nat (length events))) txn' ∧
    syncapi_invite_events (view txn')
      = syncapi_invite_events (view txn)
        ++ written_rows json_Marshal (stream_id (view txn) + 1) events ∧
    ids (written_rows json_Marshal (stream_id (view txn) + 1) events)
      = seqZ (stream_id (view txn) + 1) (Z.of_nat (length events)) ∧
    event_id <$> written_rows json_Marshal (stream_id (view txn) + 1) events
      = EventID <$> events ∧
    ∀ a1 : string,
      range_rows a1 (stream_id (view txn))
                 (stream_id (view txn) + Z.of_nat (length events)) (view txn')
      = reverse (filter (λ r, target_user_id r = a1)
                   (written_rows json_Marshal (stream_id (view txn) + 1) events)).
Proof.
  intros Hd Hm Hev. eexists. split; [by apply insert_all_insertable|].
  cbn [view syncapi_invite_events]. split; [done|].
  split; [by apply written_rows_ids|]. split; [by apply written_rows_events|].
  intros a1. by apply range_rows_after_run.
Qed.

Lemma C1_positions_consecutive_read_reversed_witness :
  done Sample.fresh = false ∧
  positions_minted (view Sample.fresh) ∧
  Forall (insertable Codec.encode) [Sample.invite1; Sample.invite2; Sample.invite3] ∧
  ∃ txn',
    insert_all Codec.encode Background
      [Sample.invite1; Sample.invite2; Sample.invite3] Sample.fresh
      = Returns [(1, None); (2, None); (3, None)] txn' ∧
    event_id <$> range_rows "@u" 0 3 (view txn') = ["$3"; "$2"; "$1"]%string.
Proof.
  assert (H1 : done Sample.fresh = false) by reflexivity.
  assert (H2 : positions_minted (view Sample.fresh)) by constructor.
  assert (H3 : Forall (insertable Codec.encode)
                 [Sample.invite1; Sample.invite2; Sample.invite3]).
  { repeat constructor; by eexists. }
  split; [exact H1|]. split; [exact H2|]. split; [exact H3|].
  destruct (C1_positions_consecutive_read_reversed Codec.encode Sample.fresh
              [Sample.invite1; Sample.invite2; Sample.invite3] H1 H2 H3)
    as (txn' & Hrun & _ & _ & _ & Hread).
  exists txn'. split; [exact Hrun|].
  change 3 with (stream_id (view Sample.fresh) + Z.of_nat (length
    [Sample.invite1; Sample.invite2; Sample.invite3])) at 1.
  change 0 with (stream_id (view Sample.fresh)) at 1.
  rewrite Hread. reflexivity.
Defined.

(** ** Position and row in one transaction *)

(** C2, as stated, fails: not every insert numbers a row.  The position is
    minted first; when the encoder then refuses the event the call returns
    the minted position with the error, and when the state key is nil the
    call faults, in both cases with the counter advanced in the
    transaction and no row written.  If that transaction is committed, a
    reader finds the counter at position 1 and no row under it. *)
Lemma C2_failed_insert_mints_position_without_row :
  InsertInviteEvent Codec.refuse Background Sample.invite1 Sample.fresh
    = Returns (1, Some ErrJSON)
        {| done := false; view := bump_stream_id inviteEventsSchema |} ∧
  InsertInviteEvent Codec.encode Background Sample.message Sample.fresh
    = Panics {| done := false; view := bump_stream_id inviteEventsSchema |} ∧
  Commit {| done := false; view := bump_stream_id inviteEventsSchema |} inviteEventsSchema
    = Ok (bump_stream_id inviteEventsSchema) ∧
  stream_id (bump_stream_id inviteEventsSchema) = 1 ∧
  syncapi_invite_events (bump_stream_id inviteEventsSchema) = [].
Proof. split_and!; vm_compute; reflexivity. Qed.

(** C2, amended: an insert that returns a nil error took its position from
    the counter of the transaction it was given and wrote the row under
    that position into the same transaction: the position was not in the
    table before, and afterwards the counter stands at the position and
    the table holds the row with the encoded event.  Commit publishes both
    at once, so a reader of the committed tables that finds the counter at
    the position finds the row; a rollback publishes neither. *)
Theorem C2_position_minted_with_row
    (json_Marshal : HeaderedEvent → fallible string) (ctx : Context)
    (inviteEvent : HeaderedEvent) (txn txn' : Tx) (p : StreamPosition) :
  InsertInviteEvent json_Marshal ctx inviteEvent txn = Returns (p, None) txn' →
  p = stream_id (view txn) + 1 ∧
  (p ∉ ids (syncapi_invite_events (view txn))) ∧
  stream_id (view txn') = p ∧
  (∃ k j, StateKey inviteEvent = Some k ∧ json_Marshal inviteEvent = Ok j ∧
          invite_row p inviteEvent k j ∈ syncapi_invite_events (view txn')) ∧
  (∀ db, ∃ db', Commit txn' db = Ok db' ∧ stream_id db' = p ∧
                ∃ row, row ∈ syncapi_invite_events db' ∧ id row = p ∧
                       json_Marshal inviteEvent = Ok (headered_event_json row) ∧
                       deleted row = false) ∧
  (∀ db, Rollback txn' db = Ok db).
Proof.
  intros H.
  apply InsertInviteEvent_success_inv in H
    as (Hd & Hctx & Hp & k & j & Hk & Hj & Hfresh & ->).
  cbn [view stream_id syncapi_invite_events].
  assert (Hin : invite_row p inviteEvent k j
                  ∈ syncapi_invite_events (view txn) ++ [invite_row p inviteEvent k j]).
  { apply elem_of_app. right. apply list_elem_of_here. }
  split_and!; try done.
  - exists k, j. done.
  - intros db. eexists. unfold Commit. cbn [done view]. split; [reflexivity|].
    cbn [stream_id syncapi_invite_events]. split; [done|].
    exists (invite_row p inviteEvent k j). split_and!; done.
Qed.

Lemma C2_position_minted_with_row_witness :
  InsertInviteEvent Codec.encode Background Sample.invite1 Sample.fresh
    = Returns (1, None)
        (state_of (InsertInviteEvent Codec.encode Background Sample.invite1 Sample.fresh)) ∧
  stream_id (view (state_of
    (InsertInviteEvent Codec.encode Background Sample.invite1 Sample.fresh))) = 1.
Proof.
  assert (H : InsertInviteEvent Codec.encode Background Sample.invite1 Sample.fresh
    = Returns (1, None)
        (state_of (InsertInviteEvent Codec.encode Background Sample.invite1 Sample.fresh)))
    by (vm_compute; reflexivity).
  split; [exact H|].
  exact (proj1 (proj2 (proj2
    (C2_position_minted_with_row Codec.encode Background Sample.invite1 Sample.fresh
       _ 1 H)))).
Defined.

(** ** The nil state key *)

(** C9, as stated, fails: with a nil state key the call does not fault
    when it never reaches the row write.  On a cancelled context the
    counter reports the error and the call returns it; with an encoder that
    refuses the event the call returns the encoding error. *)
Lemma C9_nil_state_key_can_return_error :
  StateKey Sample.message = None ∧
  InsertInviteEvent Codec.encode Canceled Sample.message Sample.fresh
    = Returns (0, Some ErrCanceled) Sample.fresh ∧
  InsertInviteEvent Codec.refuse Background Sample.message Sample.fresh
    = Returns (1, Some ErrJSON)
        {| done := false; view := bump_stream_id inviteEventsSchema |}.
Proof. split_and!; vm_compute; reflexivity. Qed.

(** C9, amended: the call faults exactly when the state key is nil and
    the call gets as far as the row write, that is, the transaction is
    open, the context alive and the event encodes.  So with a state key
    present the dereference is safe, and with a nil state key every call
    that reaches the row write faults instead of returning an error. *)
Theorem C9_faults_iff_nil_state_key_at_row_write
    (json_Marshal : HeaderedEvent → fallible string) (ctx : Context)
    (inviteEvent : HeaderedEvent) (txn : Tx) :
  (∃ txn', InsertInviteEvent json_Marshal ctx inviteEvent txn = Panics txn')
  ↔ StateKey inviteEvent = None ∧ done txn = false ∧ ctx = Background ∧
    ∃ j, json_Marshal inviteEvent = Ok j.
Proof.
  split.
  - intros [txn' H]. destruct (done txn) eqn:Hd.
    { destruct (InsertInviteEvent_stopped json_Marshal ctx inviteEvent txn)
        as [err Herr]; [by left|]. congruence. }
    destruct ctx.
    2:{ destruct (InsertInviteEvent_stopped json_Marshal Canceled inviteEvent txn)
          as [err Herr]; [by right|]. congruence. }
    rewrite InsertInviteEvent_live in H by done. cbv zeta in H.
    destruct (json_Marshal inviteEvent) as [j|err]; [|congruence].
    destruct (StateKey inviteEvent) as [k|].
    + destruct (sql_insert _ _); congruence.
    + split_and!; try done. by exists j.
  - intros (Hk & Hd & -> & j & Hj). eexists.
    rewrite InsertInviteEvent_live by done. cbv zeta. rewrite Hj, Hk. reflexivity.
Qed.

Lemma C9_faults_iff_nil_state_key_at_row_write_witness :
  ∃ txn', InsertInviteEvent Codec.encode Background Sample.message Sample.fresh
            = Panics txn'.
Proof.
  apply (C9_faults_iff_nil_state_key_at_row_write Codec.encode Background
           Sample.message Sample.fresh).
  split_and!; try reflexivity. eexists. reflexivity.
Defined.

(** ** Retiring an invite *)

Lemma is_active_event_mark_deleted a1 a2 r : is_active_event a2 (mark_deleted a1 r) = false.
Proof. unfold is_active_event, mark_deleted. simpl. by rewrite andb_false_r. Qed.

(** The one active row of the event is flagged and moved to the fresh
    position; no row leaves the table. *)
Lemma DeleteInviteEvent_retires eid txn l1 row l2 :
  done txn = false →
  positions_minted (view txn) →
  syncapi_invite_events (view txn) = l1 ++ row :: l2 →
  is_active_event eid row = true →
  Forall (λ r, is_active_event eid r = false) l1 →
  Forall (λ r, is_active_event eid r = false) l2 →
  DeleteInviteEvent Background eid txn =
    Returns (stream_id (view txn) + 1, None)
      {| done := false;
         view := {| stream_id := stream_id (view txn) + 1;
                    syncapi_invite_events :=
                      l1 ++ mark_deleted (stream_id (view txn) + 1) row :: l2 |} |}.
Proof.
  intros Hd Hm Hrows Hrow H1 H2. rewrite DeleteInviteEvent_live by done. cbv zeta.
  rewrite Hrows. rewrite sql_update_one_hit; try done.
  cbn [app mark_deleted id]. intros Hin.
  apply (minted_fresh _ Hm). rewrite Hrows. unfold ids in *.
  rewrite fmap_app in Hin. apply elem_of_app in Hin.
  rewrite fmap_app, fmap_cons. apply elem_of_app.
  destruct Hin as [Hin|Hin]; [by left|]. right. by apply list_elem_of_further.
Qed.

(** A delete that finds no active row of the event. *)
Lemma DeleteInviteEvent_vacuous eid txn :
  done txn = false →
  Forall (λ r, is_active_event eid r = false) (syncapi_invite_events (view txn)) →
  DeleteInviteEvent Background eid txn =
    Returns (stream_id (view txn) + 1, None)
      {| done := false;
         view := {| stream_id := stream_id (view txn) + 1;
                    syncapi_invite_events := syncapi_invite_events (view txn) |} |}.
Proof.
  intros Hd Hnone. rewrite DeleteInviteEvent_live by done. cbv zeta.
  rewrite sql_update_no_hit by done. reflexivity.
Qed.

(** C10: when no undeleted row carries the event id, the delete on an open
    transaction still advances the counter by one, leaves every row as it
    was, and returns the new position with a nil error.  A delete that does
    retire a row returns, from the same counter, the very same pair, so the
    return value does not tell the two apart. *)
Theorem C10_vacuous_delete_mints_position (inviteEventID : string) (txn : Tx) :
  done txn = false →
  Forall (λ r, is_active_event inviteEventID r = false)
         (syncapi_invite_events (view txn)) →
  (∃ txn', DeleteInviteEvent Background inviteEventID txn
             = Returns (stream_id (view txn) + 1, None) txn' ∧
           stream_id (view txn') = stream_id (view txn) + 1 ∧
           syncapi_invite_events (view txn') = syncapi_invite_events (view txn)) ∧
  (∀ effective l1 row l2,
     done effective = false →
     positions_minted (view effective) →
     stream_id (view effective) = stream_id (view txn) →
     syncapi_invite_events (view effective) = l1 ++ row :: l2 →
     is_active_event inviteEventID row = true →
     Forall (λ r, is_active_event inviteEventID r = false) l1 →
     Forall (λ r, is_active_event inviteEventID r = false) l2 →
     ∃ txn', DeleteInviteEvent Background inviteEventID effective
               = Returns (stream_id (view txn) + 1, None) txn' ∧
             syncapi_invite_events (view txn') ≠ syncapi_invite_events (view effective)).
Proof.
  intros Hd Hnone. split.
  - eexists. split; [by apply DeleteInviteEvent_vacuous|]. done.
  - intros eff l1 row l2 Hd' Hm Hc Hrows Hrow H1 H2. eexists.
    rewrite (DeleteInviteEvent_retires _ _ l1 row l2) by done. rewrite Hc.
    split; [reflexivity|]. cbn [view syncapi_invite_events]. rewrite Hrows.
    intros Heq. apply app_inv_head in Heq. inversion Heq as [Hrow'].
    rewrite <- Hrow' in Hrow. by rewrite is_active_event_mark_deleted in Hrow.
Qed.

Lemma C10_vacuous_delete_mints_position_witness :
  done Sample.three = false ∧
  Forall (λ r, is_active_event "$9" r = false)
         (syncapi_invite_events (view Sample.three)) ∧
  ∃ txn', DeleteInviteEvent Background "$9" Sample.three = Returns (4, None) txn' ∧
          stream_id (view txn') = 4 ∧
          syncapi_invite_events (view txn') = syncapi_invite_events (view Sample.three).
Proof.
  assert (H1 : done Sample.three = false) by reflexivity.
  assert (H2 : Forall (λ r, is_active_event "$9" r = false)
                 (syncapi_invite_events (view Sample.three))).
  { vm_compute. repeat constructor. }
  split; [exact H1|]. split; [exact H2|].
  exact (proj1 (C10_vacuous_delete_mints_position "$9" Sample.three H1 H2)).
Defined.

(** C5, as stated, fails: retiring removes nothing.  After the invite "$1"
    is retired the table still has its three rows, and the row of "$1" is
    among them, flagged and moved to position 4. *)
Lemma C5_retire_keeps_the_row :
  DeleteInviteEvent Background "$1" Sample.three
    = Returns (4, None) Sample.three_retired ∧
  length (syncapi_invite_events (view Sample.three_retired))
    = length (syncapi_invite_events (view Sample.three)) ∧
  (λ r, (id r, event_id r, deleted r)) <$> syncapi_invite_events (view Sample.three_retired)
    = [(4, "$1", true); (2, "$2", false); (3, "$3", false)]%string.
Proof. split_and!; vm_compute; reflexivity. Qed.

(** C5, amended: on an open transaction whose one active row of the event
    is [row], retiring flags exactly that row as deleted and moves it to
    the freshly minted position, leaving every other row and the number of
    rows as they were; retiring the same event a second time changes no
    row and returns a nil error (it still takes a position). *)
Theorem C5_retire_flags_one_row_idempotent
    (inviteEventID : string) (txn : Tx) (l1 l2 : list InviteRow) (row : InviteRow) :
  done txn = false →
  positions_minted (view txn) →
  syncapi_invite_events (view txn) = l1 ++ row :: l2 →
  is_active_event inviteEventID row = true →
  Forall (λ r, is_active_event inviteEventID r = false) l1 →
  Forall (λ r, is_active_event inviteEventID r = false) l2 →
  ∃ txn1 txn2,
    DeleteInviteEvent Background inviteEventID txn
      = Returns (stream_id (view txn) + 1, None) txn1 ∧
    syncapi_invite_events (view txn1)
      = l1 ++ mark_deleted (stream_id (view txn) + 1) row :: l2 ∧
    DeleteInviteEvent Background inviteEventID txn1
      = Returns (stream_id (view txn) + 2, None) txn2 ∧
    syncapi_invite_events (view txn2) = syncapi_invite_events (view txn1).
Proof.
  intros Hd Hm Hrows Hrow H1 H2.
  set (rows1 := l1 ++ mark_deleted (stream_id (view txn) + 1) row :: l2).
  exists {| done := false;
            view := {| stream_id := stream_id (view txn) + 1;
                       syncapi_invite_events := rows1 |} |},
         {| done := false;
            view := {| stream_id := stream_id (view txn) + 2;
                       syncapi_invite_events := rows1 |} |}.
  split; [by apply (DeleteInviteEvent_retires _ _ l1 row l2)|].
  split; [reflexivity|]. split; [|reflexivity].
  rewrite DeleteInviteEvent_vacuous; cbn [done view stream_id syncapi_invite_events].
  - replace (stream_id (view txn) + 1 + 1) with (stream_id (view txn) + 2) by lia.
    reflexivity.
  - reflexivity.
  - apply Forall_app. split; [done|]. constructor; [|done].
    apply is_active_event_mark_deleted.
Qed.

Lemma C5_retire_flags_one_row_idempotent_witness :
  ∃ txn1 txn2,
    DeleteInviteEvent Background "$1" Sample.three = Returns (4, None) txn1 ∧
    (λ r, (id r, deleted r)) <$> syncapi_invite_events (view txn1)
      = [(4, true); (2, false); (3, false)] ∧
    DeleteInviteEvent Background "$1" txn1 = Returns (5, None) txn2 ∧
    syncapi_invite_events (view txn2) = syncapi_invite_events (view txn1).
Proof.
  destruct (C5_retire_flags_one_row_idempotent "$1" Sample.three []
              (skipn 1 (syncapi_invite_events (view Sample.three)))
              (invite_row 1 Sample.invite1 "@u" (Codec.text Sample.invite1)))
    as (txn1 & txn2 & Ha & Hb & Hc & He).
  - reflexivity.
  - vm_compute. repeat constructor; discriminate.
  - vm_compute. reflexivity.
  - vm_compute. reflexivity.
  - constructor.
  - vm_compute. repeat constructor.
  - exists txn1, txn2. split; [exact Ha|]. split; [rewrite Hb; vm_compute; reflexivity|].
    split; [exact Hc | exact He].
Defined.

(** ** The range scan *)

Lemma first_in_room_cons_same k r rows :
  room_id r = k → first_in_room k (r :: rows) = Some r.
Proof. intros H. unfold first_in_room. by rewrite filter_cons_True. Qed.

Lemma first_in_room_cons_other k r rows :
  room_id r ≠ k → first_in_room k (r :: rows) = first_in_room k rows.
Proof. intros H. unfold first_in_room. by rewrite filter_cons_False. Qed.

Lemma first_in_room_elem k rows r :
  first_in_room k rows = Some r → r ∈ rows ∧ room_id r = k.
Proof.
  unfold first_in_room. intros H. apply head_Some_elem_of in H.
  apply list_elem_of_filter in H. tauto.
Qed.

Lemma ids_unique rows r1 r2 :
  NoDup (ids rows) → r1 ∈ rows → r2 ∈ rows → id r1 = id r2 → r1 = r2.
Proof.
  unfold ids. induction rows as [|x rows IH]; intros Hnd H1 H2 Heq.
  - by apply elem_of_nil in H1.
  - rewrite fmap_cons in Hnd. apply NoDup_cons in Hnd as [Hx Hnd].
    apply elem_of_cons in H1 as [->|H1]; apply elem_of_cons in H2 as [->|H2].
    + done.
    + exfalso. apply Hx. rewrite Heq. by apply list_elem_of_fmap_2.
    + exfalso. apply Hx. rewrite <- Heq. by apply list_elem_of_fmap_2.
    + by apply IH.
Qed.

(** In a cursor with falling ids, the first row of a room is its row with
    the highest id. *)
Lemma first_in_room_highest k rows row :
  StronglySorted id_desc rows →
  NoDup (ids rows) →
  row ∈ rows → room_id row = k →
  (∀ row', row' ∈ rows → room_id row' = k → id row' ≤ id row) →
  first_in_room k rows = Some row.
Proof.
  induction rows as [|x rows IH]; intros Hs Hnd Hin Hk Hmax.
  - by apply elem_of_nil in Hin.
  - apply StronglySorted_cons in Hs as [Hx Hs].
    destruct (decide (room_id x = k)) as [Hxk|Hxk].
    + rewrite first_in_room_cons_same by done. f_equal.
      apply elem_of_cons in Hin as [->|Hin]; [done|].
      apply (ids_unique (x :: rows)); [done|apply list_elem_of_here| |].
      * by apply list_elem_of_further.
      * rewrite Forall_forall in Hx. specialize (Hx row Hin). unfold id_desc in Hx.
        specialize (Hmax x (list_elem_of_here _ _) Hxk). lia.
    + rewrite first_in_room_cons_other by done.
      apply elem_of_cons in Hin as [->|Hin]; [done|].
      unfold ids in Hnd. rewrite fmap_cons in Hnd. apply NoDup_cons in Hnd as [_ Hnd].
      apply IH; try done. intros row' Hrow'. apply Hmax. by apply list_elem_of_further.
Qed.

Lemma range_rows_primary_key a1 a2 a3 t :
  primary_key t → NoDup (ids (range_rows a1 a2 a3 t)).
Proof.
  unfold primary_key, ids. intros Hnd. rewrite range_rows_perm.
  eapply sublist_NoDup; [exact Hnd|apply fmap_sublist, sublist_filter].
Qed.

Section ScanFacts.

Variable json_Unmarshal : string → fallible HeaderedEvent.

Lemma scan_rows_spec rows result retired result' retired' :
  scan_rows json_Unmarshal (columns <$> rows) result retired = Ok (result', retired') →
  ∀ k,
    (is_Some (retired !! k) ∨ is_Some (result !! k) →
       result' !! k = result !! k ∧ retired' !! k = retired !! k) ∧
    (result !! k = None → retired !! k = None →
       match first_in_room k rows with
       | Some row => filed json_Unmarshal row result' retired'
       | None => result' !! k = None ∧ retired' !! k = None
       end).
Proof.
  revert result retired.
  induction rows as [|r rows IH]; intros result retired Hscan k.
  - simpl in Hscan. inversion Hscan; subst. split; [done|]. intros. by cbn.
  - cbn [fmap list_fmap columns scan_rows] in Hscan.
    fold (columns <$> rows) in Hscan.
    destruct (bool_decide (is_Some (retired !! room_id r))
              || bool_decide (is_Some (result !! room_id r))) eqn:Hseen.
    + (* a room seen before: the row is dropped *)
      specialize (IH _ _ Hscan k). destruct IH as [IH1 IH2]. split; [done|].
      intros Hres Hret. rewrite first_in_room_cons_other; [by apply IH2|].
      intros Heq; subst k. apply orb_true_iff in Hseen as [Hs|Hs];
        apply bool_decide_eq_true in Hs; destruct Hs as [? Hs]; congruence.
    + apply orb_false_iff in Hseen as [Hs1 Hs2].
      apply bool_decide_eq_false in Hs1. apply bool_decide_eq_false in Hs2.
      rewrite <- eq_None_not_Some in Hs1. rewrite <- eq_None_not_Some in Hs2.
      destruct (json_Unmarshal (headered_event_json r)) as [event|err] eqn:Hdec;
        [|congruence].
      destruct (deleted r) eqn:Hdel.
      * specialize (IH _ _ Hscan). split.
        -- intros Hk. assert (Hne : room_id r ≠ k).
           { intros Heq; subst k. destruct Hk as [[? Hk]|[? Hk]]; congruence. }
           destruct (IH k) as [IH1 _]. rewrite lookup_insert_ne in IH1 by done.
           by apply IH1.
        -- intros Hres Hret. destruct (decide (room_id r = k)) as [<-|Hne].
           ++ rewrite first_in_room_cons_same by done.
              destruct (IH (room_id r)) as [IH1 _].
              rewrite lookup_insert_eq in IH1.
              destruct IH1 as [E1 E2]; [left; by eexists|].
              exists event. rewrite Hdel. split; [done|]. split; congruence.
           ++ rewrite first_in_room_cons_other by done.
              destruct (IH k) as [_ IH2]. apply IH2; [done|].
              by rewrite lookup_insert_ne.
      * specialize (IH _ _ Hscan). split.
        -- intros Hk. assert (Hne : room_id r ≠ k).
           { intros Heq; subst k. destruct Hk as [[? Hk]|[? Hk]]; congruence. }
           destruct (IH k) as [IH1 _]. rewrite lookup_insert_ne in IH1 by done.
           by apply IH1.
        -- intros Hres Hret. destruct (decide (room_id r = k)) as [<-|Hne].
           ++ rewrite first_in_room_cons_same by done.
              destruct (IH (room_id r)) as [IH1 _].
              rewrite lookup_insert_eq in IH1.
              destruct IH1 as [E1 E2]; [right; by eexists|].
              exists event. rewrite Hdel. split; [done|]. split; congruence.
           ++ rewrite first_in_room_cons_other by done.
              destruct (IH k) as [_ IH2]. apply IH2; [|done].
              by rewrite lookup_insert_ne.
Qed.

(** The scan gets through when every row of the cursor decodes. *)
Lemma scan_rows_total rows result retired :
  Forall (λ r, ∃ event, json_Unmarshal (headered_event_json r) = Ok event) rows →
  ∃ out, scan_rows json_Unmarshal (columns <$> rows) result retired = Ok out.
Proof.
  intros H. revert result retired.
  induction H as [|r rows [event Hr] _ IH]; intros result retired.
  - eexists. reflexivity.
  - cbn [fmap list_fmap columns scan_rows]. fold (columns <$> rows).
    destruct (_ || _); [apply IH|]. rewrite Hr. destruct (deleted r); apply IH.
Qed.

Lemma SelectInviteEventsInRange_cases ctx a1 r txn :
  SelectInviteEventsInRange json_Unmarshal ctx a1 r txn =
    if done txn then Returns (Err ErrTxDone) txn
    else match ctx with
         | Canceled => Returns (Err ErrCanceled) txn
         | Background =>
             Returns (scan_rows json_Unmarshal
                        (columns <$> range_rows a1 (Low r) (High r) (view txn)) ∅ ∅) txn
         end.
Proof.
  unfold SelectInviteEventsInRange. go_unfold.
  destruct (done txn); [done|]. destruct ctx; reflexivity.
Qed.

End ScanFacts.

(** ** Soft delete and last writer wins *)

(** C3: a retirement is an event of its own: the row of the retired invite
    is flagged deleted and takes the freshly minted position, which lies
    above every position in the table.  A range scan that returns without
    error files every room that has a row in the range by exactly the row
    of that room with the highest position: in the retired map if that row
    is flagged deleted, in the result (active) map if not, and in no other
    map; and the maps hold no room without a row in the range.  The scan
    does return without error on an open transaction whose rows all
    decode. *)
Theorem C3_retire_is_event_scan_takes_highest
    (json_Unmarshal : string → fallible HeaderedEvent) :
  (∀ (inviteEventID : string) (txn : Tx) (l1 l2 : list InviteRow) (row : InviteRow),
     done txn = false →
     positions_minted (view txn) →
     syncapi_invite_events (view txn) = l1 ++ row :: l2 →
     is_active_event inviteEventID row = true →
     Forall (λ r, is_active_event inviteEventID r = false) l1 →
     Forall (λ r, is_active_event inviteEventID r = false) l2 →
     ∃ txn',
       DeleteInviteEvent Background inviteEventID txn
         = Returns (stream_id (view txn) + 1, None) txn' ∧
       syncapi_invite_events (view txn')
         = l1 ++ mark_deleted (stream_id (view txn) + 1) row :: l2 ∧
       deleted (mark_deleted (stream_id (view txn) + 1) row) = true ∧
       Forall (λ r, id r < id (mark_deleted (stream_id (view txn) + 1) row))
              (syncapi_invite_events (view txn)))
  ∧
  (∀ (ctx : Context) (targetUserID : string) (r : Range) (txn txn' : Tx)
     (result retired : gmap string HeaderedEvent),
     primary_key (view txn) →
     SelectInviteEventsInRange json_Unmarshal ctx targetUserID r txn
       = Returns (Ok (result, retired)) txn' →
     (∀ row,
        row ∈ syncapi_invite_events (view txn) →
        in_range targetUserID (Low r) (High r) row →
        (∀ row', row' ∈ syncapi_invite_events (view txn) →
                 in_range targetUserID (Low r) (High r) row' →
                 room_id row' = room_id row → id row' ≤ id row) →
        filed json_Unmarshal row result retired) ∧
     (∀ k, is_Some (result !! k) ∨ is_Some (retired !! k) →
           ∃ row, row ∈ syncapi_invite_events (view txn) ∧
                  in_range targetUserID (Low r) (High r) row ∧ room_id row = k))
  ∧
  (∀ (targetUserID : string) (r : Range) (txn : Tx),
     done txn = false →
     Forall (λ row, ∃ event, json_Unmarshal (headered_event_json row) = Ok event)
            (syncapi_invite_events (view txn)) →
     ∃ result retired,
       SelectInviteEventsInRange json_Unmarshal Background targetUserID r txn
         = Returns (Ok (result, retired)) txn).
Proof.
  split; [|split].
  - intros eid txn l1 l2 row Hd Hm Hrows Hrow H1 H2. eexists.
    split; [by apply (DeleteInviteEvent_retires _ _ l1 row l2)|].
    cbn [view syncapi_invite_events mark_deleted deleted id].
    split_and!; try done.
    eapply Forall_impl; [exact Hm|]. intros x Hx. cbv beta in Hx. lia.
  - intros ctx a1 r txn txn' result retired Hpk Hsel.
    rewrite SelectInviteEventsInRange_cases in Hsel.
    destruct (done txn); [congruence|]. destruct ctx; [|congruence].
    assert (Hscan : scan_rows json_Unmarshal
              (columns <$> range_rows a1 (Low r) (High r) (view txn)) ∅ ∅
              = Ok (result, retired)) by congruence.
    clear Hsel. pose proof (scan_rows_spec _ _ _ _ _ _ Hscan) as Hspec. split.
    + intros row Hin Hrange Hmax.
      destruct (Hspec (room_id row)) as [_ Hk].
      rewrite (first_in_room_highest (room_id row) _ row) in Hk.
      * apply Hk; apply lookup_empty.
      * apply order_by_id_desc_sorted.
      * by apply range_rows_primary_key.
      * apply elem_of_range_rows. unfold in_range in Hrange. tauto.
      * done.
      * intros row' Hin' Hroom. apply elem_of_range_rows in Hin'.
        apply Hmax; [tauto| |done]. unfold in_range. tauto.
    + intros k Hk. destruct (Hspec k) as [_ Hnone].
      specialize (Hnone (lookup_empty _) (lookup_empty _)).
      destruct (first_in_room k (range_rows a1 (Low r) (High r) (view txn)))
        as [row|] eqn:Hfirst.
      * apply first_in_room_elem in Hfirst as [Hin Hroom].
        apply elem_of_range_rows in Hin. exists row. unfold in_range. tauto.
      * destruct Hnone as [E1 E2]. rewrite E1, E2 in Hk.
        destruct Hk as [[? ?]|[? ?]]; congruence.
  - intros a1 r txn Hd Hdec. rewrite SelectInviteEventsInRange_cases, Hd.
    destruct (scan_rows_total json_Unmarshal
                (range_rows a1 (Low r) (High r) (view txn)) ∅ ∅) as [[result retired] ->].
    + apply Forall_forall. intros row Hrow. apply elem_of_range_rows in Hrow as [Hrow _].
      rewrite Forall_forall in Hdec. by apply Hdec.
    + by exists result, retired.
Qed.

Lemma C3_retire_is_event_scan_takes_highest_witness :
  primary_key (view Sample.three_retired) ∧
  SelectInviteEventsInRange Codec.decode Background "@u" (mkRange 0 4)
      Sample.three_retired
    = Returns (Ok (Sample.scanned.1, Sample.scanned.2)) Sample.three_retired ∧
  filed Codec.decode Sample.row1_retired Sample.scanned.1 Sample.scanned.2.
Proof.
  assert (Hpk : primary_key (view Sample.three_retired)).
  { vm_compute. repeat (constructor; [rewrite ?elem_of_cons, ?elem_of_nil; lia|]).
    constructor. }
  assert (Hsel : SelectInviteEventsInRange Codec.decode Background "@u" (mkRange 0 4)
                   Sample.three_retired
                 = Returns (Ok (Sample.scanned.1, Sample.scanned.2)) Sample.three_retired).
  { vm_compute. reflexivity. }
  split; [exact Hpk|]. split; [exact Hsel|].
  apply (proj1 (proj1 (proj2 (C3_retire_is_event_scan_takes_highest Codec.decode))
                  Background "@u" (mkRange 0 4) Sample.three_retired
                  Sample.three_retired Sample.scanned.1 Sample.scanned.2 Hpk Hsel)).
  - vm_compute. apply list_elem_of_here.
  - vm_compute. split; [reflexivity|]. split; [reflexivity|]. discriminate.
  - intros row' Hin _ _. change (id Sample.row1_retired) with 4.
    assert (Hall : Forall (λ x, id x ≤ 4) (syncapi_invite_events (view Sample.three_retired))).
    { vm_compute. repeat constructor; discriminate. }
    rewrite Forall_forall in Hall. by apply Hall.
Defined.

(** ** The range read *)

(** C4, as stated, fails: on the table with the invites at positions 1, 2
    and 3, the read with lower bound 0 and upper bound 2 walks positions 2
    and then 1, which is not ascending, and it leaves out position 3 although
    3 lies strictly after the lower bound. *)
Lemma C4_range_read_descending_and_bounded_above :
  ids (range_rows "@u" 0 2 (view Sample.three)) = [2; 1] ∧
  ¬ Sorted Z.le (ids (range_rows "@u" 0 2 (view Sample.three))) ∧
  ∃ row, row ∈ syncapi_invite_events (view Sample.three) ∧
         target_user_id row = "@u" ∧ 0 < id row ∧
         row ∉ range_rows "@u" 0 2 (view Sample.three).
Proof.
  split; [vm_compute; reflexivity|]. split.
  - intros Hs. assert (E : ids (range_rows "@u" 0 2 (view Sample.three)) = [2; 1])
      by (vm_compute; reflexivity).
    rewrite E in Hs. inversion Hs as [|? ? _ Hrel]. inversion Hrel as [|? ? Hle]. lia.
  - exists (invite_row 3 Sample.invite3 "@u" (Codec.text Sample.invite3)).
    split; [vm_compute; do 2 apply list_elem_of_further; apply list_elem_of_here|].
    split; [reflexivity|]. split; [reflexivity|].
    intros Hin. apply elem_of_range_rows in Hin as (_ & _ & _ & Hle).
    vm_compute in Hle. by apply Hle.
Qed.

(** C4, amended: the range read returns exactly the rows of the target
    user whose id lies strictly after the lower bound and at or below the
    upper bound, each as often as it is stored, in descending id order, and
    the call never faults and leaves the transaction and every row as it
    found them. *)
Theorem C4_range_read_bounded_descending_readonly
    (json_Unmarshal : string → fallible HeaderedEvent) (ctx : Context)
    (targetUserID : string) (r : Range) (txn : Tx) :
  (∀ row, row ∈ range_rows targetUserID (Low r) (High r) (view txn) ↔
          row ∈ syncapi_invite_events (view txn) ∧ target_user_id row = targetUserID ∧
          Low r < id row ∧ id row ≤ High r) ∧
  range_rows targetUserID (Low r) (High r) (view txn)
    ≡ₚ filter (in_range targetUserID (Low r) (High r)) (syncapi_invite_events (view txn)) ∧
  StronglySorted id_desc (range_rows targetUserID (Low r) (High r) (view txn)) ∧
  selectInviteEventsInRangeSQL targetUserID (Low r) (High r) (view txn)
    = columns <$> range_rows targetUserID (Low r) (High r) (view txn) ∧
  ∃ out, SelectInviteEventsInRange json_Unmarshal ctx targetUserID r txn
           = Returns out txn.
Proof.
  split; [intros row; apply elem_of_range_rows|].
  split; [apply range_rows_perm|].
  split; [apply order_by_id_desc_sorted|].
  split; [reflexivity|].
  rewrite SelectInviteEventsInRange_cases.
  destruct (done txn); [by eexists|]. destruct ctx; by eexists.
Qed.

(** ** The destination ledger: blacklist and success *)

Section LedgerFacts.

Import Ledger.

Lemma entry_insert_eq d e (l : gmap string Entry) : entry (<[d := e]> l) d = e.
Proof. unfold entry. by rewrite lookup_insert_eq. Qed.

Lemma entry_insert_ne d d' e (l : gmap string Entry) :
  d ≠ d' → entry (<[d := e]> l) d' = entry l d'.
Proof. intros H. unfold entry. by rewrite lookup_insert_ne. Qed.

Lemma run_snoc cfg ops op p : run cfg (ops ++ [op]) p = step cfg (run cfg ops p) op.
Proof. unfold run. by rewrite foldl_app. Qed.

Lemma run_app cfg ops1 ops2 p : run cfg (ops1 ++ ops2) p = run cfg ops2 (run cfg ops1 p).
Proof. unfold run. by rewrite foldl_app. Qed.

(** Each recorded failure adds one to the count. *)
Lemma failures_count cfg d nows p :
  failure_count (entry (destination_ledger (run cfg (OpRecordFailure d <$> nows) p)) d)
  = (failure_count (entry (destination_ledger p) d) + length nows)%nat.
Proof.
  induction nows as [|now nows IH] using rev_ind.
  - simpl. lia.
  - rewrite fmap_app. change (OpRecordFailure d <$> [now]) with [OpRecordFailure d now].
    rewrite run_snoc. cbn [step on_ledger destination_ledger].
    unfold RecordFailure. cbn [snd]. rewrite entry_insert_eq. cbn [failure_count].
    rewrite IH, length_app. simpl. lia.
Qed.

(** Right after a recorded failure, a count at or above the threshold
    means blacklisted. *)
Lemma failure_blacklists cfg d now p :
  (threshold cfg ≤
     failure_count (entry (destination_ledger (step cfg p (OpRecordFailure d now))) d))%nat →
  IsBlacklisted d (destination_ledger (step cfg p (OpRecordFailure d now))) = true.
Proof.
  unfold IsBlacklisted. cbn [step on_ledger destination_ledger]. unfold RecordFailure.
  cbn [snd]. rewrite entry_insert_eq. cbn [failure_count blacklisted]. intros H.
  apply orb_true_iff. right. by apply bool_decide_eq_true.
Qed.

(** Only [ClearBlacklist] of the destination itself lifts its blacklist. *)
Lemma step_keeps_blacklist cfg d p op :
  op ≠ OpClearBlacklist d →
  IsBlacklisted d (destination_ledger p) = true →
  IsBlacklisted d (destination_ledger (step cfg p op)) = true.
Proof.
  unfold IsBlacklisted. intros Hop Hb.
  destruct op as [d' now|d'|d'|]; cbn [step on_ledger Restart destination_ledger].
  - unfold RecordFailure. cbn [snd]. destruct (decide (d' = d)) as [->|Hne].
    + rewrite entry_insert_eq. cbn [blacklisted]. by rewrite Hb.
    + by rewrite entry_insert_ne.
  - unfold RecordSuccess. destruct (decide (d' = d)) as [->|Hne].
    + by rewrite entry_insert_eq.
    + by rewrite entry_insert_ne.
  - unfold ClearBlacklist. destruct (decide (d' = d)) as [->|Hne]; [done|].
    by rewrite entry_insert_ne.
  - done.
Qed.

Lemma run_keeps_blacklist cfg d ops p :
  Forall (λ op, op ≠ OpClearBlacklist d) ops →
  IsBlacklisted d (destination_ledger p) = true →
  IsBlacklisted d (destination_ledger (run cfg ops p)) = true.
Proof.
  intros H. revert p. induction H as [|op ops Hop _ IH]; intros p Hb; [done|].
  cbn [run foldl]. apply IH. by apply step_keeps_blacklist.
Qed.

(** C6: once as many failures in a row as the (positive) threshold have
    been recorded for a destination, [IsBlacklisted] is true for it, and
    it stays true through everything that follows, further failures,
    successes, restarts of the process and operations on other
    destinations included, as long as [ClearBlacklist] is not called for
    that destination. *)
Theorem C6_blacklisted_at_threshold_until_cleared
    (cfg : Config) (d : string) (p : Process) (nows : list Z) (later : list Op) :
  (0 < threshold cfg)%nat →
  length nows = threshold cfg →
  Forall (λ op, op ≠ OpClearBlacklist d) later →
  IsBlacklisted d
    (destination_ledger (run cfg ((OpRecordFailure d <$> nows) ++ later) p)) = true.
Proof.
  intros Hpos Hlen Hlater. rewrite run_app. apply run_keeps_blacklist; [done|].
  destruct nows as [|now nows _] using rev_ind.
  { simpl in Hlen. lia. }
  rewrite fmap_app. change (OpRecordFailure d <$> [now]) with [OpRecordFailure d now].
  rewrite run_snoc. apply failure_blacklists. rewrite <- run_snoc.
  change [OpRecordFailure d now] with (OpRecordFailure d <$> [now]).
  rewrite <- fmap_app, failures_count. lia.
Qed.

Lemma C6_blacklisted_at_threshold_until_cleared_witness :
  (0 < threshold sample_config)%nat ∧
  length [100; 105; 115] = threshold sample_config ∧
  IsBlacklisted "b.example" (destination_ledger (run sample_config
    [OpRecordFailure "b.example" 100; OpRecordFailure "b.example" 105]
    started)) = false ∧
  IsBlacklisted "b.example" (destination_ledger (run sample_config
    ((OpRecordFailure "b.example" <$> [100; 105; 115])
     ++ [OpRecordFailure "b.example" 135; OpRestart; OpRecordSuccess "b.example";
         OpClearBlacklist "a.example"])
    started)) = true.
Proof.
  split; [vm_compute; lia|]. split; [reflexivity|]. split; [vm_compute; reflexivity|].
  apply (C6_blacklisted_at_threshold_until_cleared sample_config "b.example" started
           [100; 105; 115]).
  - vm_compute. lia.
  - reflexivity.
  - repeat constructor; discriminate.
Defined.

(** C7: [RecordSuccess] sets the failure count of the destination to zero
    and clears its pending retry time, leaves its blacklisted flag as it
    was, and touches no other destination. *)
Theorem C7_success_resets_count_keeps_blacklist (d : string) (l : gmap string Entry) :
  failure_count (entry (RecordSuccess d l) d) = 0%nat ∧
  next_retry_at (entry (RecordSuccess d l) d) = None ∧
  IsBlacklisted d (RecordSuccess d l) = IsBlacklisted d l ∧
  ∀ d', d' ≠ d → entry (RecordSuccess d l) d' = entry l d'.
Proof.
  unfold IsBlacklisted, RecordSuccess. rewrite entry_insert_eq.
  split_and!; try done. intros d' Hne. by rewrite entry_insert_ne.
Qed.

End LedgerFacts.

(** ** The table invariants hold in every state the methods reach *)

Lemma ids_middle seen r rest : ids (seen ++ r :: rest) ≡ₚ id r :: ids (seen ++ rest).
Proof.
  unfold ids. rewrite !fmap_app, fmap_cons. by rewrite Permutation_middle.
Qed.

Lemma sql_update_primary_key where' set seen rest out :
  NoDup (ids (seen ++ rest)) →
  sql_update where' set seen rest = Ok out →
  NoDup (ids out).
Proof.
  revert seen. induction rest as [|r rest IH]; intros seen Hnd Hupd; simpl in Hupd.
  - inversion Hupd; subst. by rewrite app_nil_r in Hnd.
  - rewrite ids_middle in Hnd. apply NoDup_cons in Hnd as [Hr Hnd].
    destruct (where' r).
    + case_decide as Hc; [congruence|]. apply (IH (seen ++ [set r])); [|done].
      rewrite <- app_assoc. cbn [app]. rewrite ids_middle. apply NoDup_cons.
      split; [|done]. intros Hin. destruct (decide (id (set r) = id r)) as [E|E].
      * rewrite E in Hin. done.
      * apply Hc. done.
    + apply (IH (seen ++ [r])); [|done]. rewrite <- app_assoc. cbn [app].
      rewrite ids_middle. by apply NoDup_cons.
Qed.

Lemma sql_update_bound where' set seen rest out c :
  (∀ r, id (set r) ≤ c) →
  Forall (λ r, id r ≤ c) (seen ++ rest) →
  sql_update where' set seen rest = Ok out →
  Forall (λ r, id r ≤ c) out.
Proof.
  intros Hset. revert seen. induction rest as [|r rest IH]; intros seen Hb Hupd;
    simpl in Hupd.
  - inversion Hupd; subst. by rewrite app_nil_r in Hb.
  - apply Forall_app in Hb as [Hb1 Hb2]. apply Forall_cons in Hb2 as [Hr Hb2].
    destruct (where' r).
    + case_decide; [congruence|]. apply (IH (seen ++ [set r])); [|done].
      rewrite <- app_assoc. apply Forall_app. split; [done|]. constructor; [apply Hset|done].
    + apply (IH (seen ++ [r])); [|done]. rewrite <- app_assoc. apply Forall_app.
      split; [done|]. by constructor.
Qed.

Lemma bump_keeps_invariants t :
  primary_key t ∧ positions_minted t →
  primary_key (bump_stream_id t) ∧ positions_minted (bump_stream_id t).
Proof.
  intros [Hpk Hm]. split; [done|]. unfold positions_minted in *. simpl.
  eapply Forall_impl; [exact Hm|]. intros r Hr. cbv beta in Hr. lia.
Qed.

Lemma DeleteInviteEvent_keeps_invariants ctx eid txn :
  primary_key (view txn) ∧ positions_minted (view txn) →
  primary_key (view (state_of (DeleteInviteEvent ctx eid txn))) ∧
  positions_minted (view (state_of (DeleteInviteEvent ctx eid txn))).
Proof.
  intros Hinv. destruct (done txn) eqn:Hd.
  { destruct (DeleteInviteEvent_stopped ctx eid txn) as [err ->]; [by left|]. done. }
  destruct ctx.
  2:{ destruct (DeleteInviteEvent_stopped Canceled eid txn) as [err ->]; [by right|].
      done. }
  rewrite DeleteInviteEvent_live by done. cbv zeta.
  destruct (sql_update _ _ _ _) as [rows|err] eqn:Hupd; cbn [state_of view].
  - destruct Hinv as [Hpk Hm]. split.
    + unfold primary_key. cbn [syncapi_invite_events].
      by apply (sql_update_primary_key _ _ [] _ _ Hpk Hupd).
    + unfold positions_minted. cbn [syncapi_invite_events stream_id].
      apply (sql_update_bound (is_active_event eid)
               (mark_deleted (stream_id (view txn) + 1)) []
               (syncapi_invite_events (view txn))); [intros r; simpl; lia| |exact Hupd].
      cbn [app]. eapply Forall_impl; [exact Hm|]. intros r Hr. cbv beta in Hr. lia.
  - by apply bump_keeps_invariants.
Qed.

Lemma InsertInviteEvent_keeps_invariants
    (json_Marshal : HeaderedEvent → fallible string) ctx e txn :
  primary_key (view txn) ∧ positions_minted (view txn) →
  primary_key (view (state_of (InsertInviteEvent json_Marshal ctx e txn))) ∧
  positions_minted (view (state_of (InsertInviteEvent json_Marshal ctx e txn))).
Proof.
  intros Hinv. destruct (done txn) eqn:Hd.
  { destruct (InsertInviteEvent_stopped json_Marshal ctx e txn) as [err ->]; [by left|].
    done. }
  destruct ctx.
  2:{ destruct (InsertInviteEvent_stopped json_Marshal Canceled e txn) as [err ->];
        [by right|]. done. }
  rewrite InsertInviteEvent_live by done. cbv zeta.
  destruct (json_Marshal e) as [j|err]; [|by apply bump_keeps_invariants].
  destruct (StateKey e) as [k|]; [|by apply bump_keeps_invariants].
  unfold sql_insert. case_decide as Hin; [by apply bump_keeps_invariants|].
  cbn [state_of view]. destruct Hinv as [Hpk Hm]. split.
  - unfold primary_key, ids in *. cbn [syncapi_invite_events].
    rewrite fmap_app. apply NoDup_app. split; [done|]. split.
    + intros x Hx Hx'. cbn in Hx'. apply list_elem_of_singleton in Hx'. subst x. done.
    + apply NoDup_singleton.
  - unfold positions_minted in *. cbn [syncapi_invite_events stream_id].
    apply Forall_app. split.
    + eapply Forall_impl; [exact Hm|]. intros r Hr. cbv beta in Hr. lia.
    + constructor; [simpl; lia|constructor].
Qed.

Lemma schema_invariants :
  primary_key inviteEventsSchema ∧ positions_minted inviteEventsSchema.
Proof. split; constructor. Qed.

(** ** The highest position a reader sees *)

Lemma foldr_max_elem x xs : foldr Z.max x xs ∈ x :: xs.
Proof.
  induction xs as [|y xs IH]; simpl; [apply list_elem_of_here|].
  destruct (Z.max_spec y (foldr Z.max x xs)) as [[_ ->]|[_ ->]].
  - apply elem_of_cons in IH as [->|IH]; [apply list_elem_of_here|].
    by do 2 apply list_elem_of_further.
  - apply list_elem_of_further, list_elem_of_here.
Qed.

(** [SelectMaxInviteID] reads the position off the rows, so a position it
    reports is the id of a row that is there. *)
Lemma SelectMaxInviteID_observes_row ctx txn m txn' :
  SelectMaxInviteID ctx txn = Returns (m, None) txn' →
  m ≠ 0 →
  ∃ row, row ∈ syncapi_invite_events (view txn) ∧ id row = m.
Proof.
  unfold SelectMaxInviteID. go_unfold. intros H Hm.
  destruct (done txn); [congruence|]. destruct ctx; [|congruence].
  unfold selectMaxInviteIDSQL in H.
  destruct (ids (syncapi_invite_events (view txn))) as [|x xs] eqn:Hids; [congruence|].
  inversion H; subst. pose proof (foldr_max_elem x xs) as Hin.
  rewrite <- Hids in Hin. unfold ids in Hin.
  apply list_elem_of_fmap in Hin as (row & Heq & Hrow). by exists row.
Qed.

Lemma foldr_max_upper x xs : Forall (λ y, y ≤ foldr Z.max x xs) (x :: xs).
Proof.
  induction xs as [|y xs IH]; simpl.
  - constructor; [lia|constructor].
  - apply Forall_cons in IH as [Hx Hxs]. constructor; [lia|].
    constructor; [lia|]. eapply Forall_impl; [exact Hxs|]. intros z Hz.
    cbv beta in Hz. lia.
Qed.

Lemma selectMaxInviteIDSQL_Some t m :
  selectMaxInviteIDSQL t = Some m ↔
  (∃ row, row ∈ syncapi_invite_events t ∧ id row = m) ∧
  Forall (λ r, id r ≤ m) (syncapi_invite_events t).
Proof.
  unfold selectMaxInviteIDSQL. split.
  - destruct (ids (syncapi_invite_events t)) as [|x xs] eqn:Hids; [done|].
    intros [= <-]. split.
    + pose proof (foldr_max_elem x xs) as Hin. rewrite <- Hids in Hin.
      apply list_elem_of_fmap in Hin as (row & Heq & Hrow). by exists row.
    + pose proof (foldr_max_upper x xs) as Hup. rewrite <- Hids in Hup.
      unfold ids in Hup. by rewrite Forall_fmap in Hup.
  - intros [(row & Hrow & Hid) Hup].
    destruct (ids (syncapi_invite_events t)) as [|x xs] eqn:Hids.
    + apply (f_equal length) in Hids. unfold ids in Hids. rewrite length_fmap in Hids.
      destruct (syncapi_invite_events t); [by apply elem_of_nil in Hrow|done].
    + f_equal. pose proof (foldr_max_elem x xs) as Hin.
      pose proof (foldr_max_upper x xs) as Hmax. rewrite <- Hids in Hin, Hmax.
      unfold ids in Hin, Hmax. rewrite Forall_fmap in Hmax.
      apply list_elem_of_fmap in Hin as (row' & Heq & Hrow').
      rewrite Forall_forall in Hup, Hmax.
      specialize (Hup row' Hrow'). specialize (Hmax row Hrow).
      cbv beta in Hup. unfold compose in Hmax. lia.
Qed.

Lemma selectMaxInviteIDSQL_None t :
  selectMaxInviteIDSQL t = None ↔ syncapi_invite_events t = [].
Proof.
  unfold selectMaxInviteIDSQL, ids. destruct (syncapi_invite_events t); simpl; split; done.
Qed.

Lemma SelectMaxInviteID_cases ctx txn :
  SelectMaxInviteID ctx txn =
    if done txn then Returns (0, Some ErrTxDone) txn
    else match ctx with
         | Canceled => Returns (0, Some ErrCanceled) txn
         | Background =>
             match selectMaxInviteIDSQL (view txn) with
             | None => Returns (0, None) txn
             | Some m => Returns (m, None) txn
             end
         end.
Proof.
  unfold SelectMaxInviteID. go_unfold. destruct (done txn); [done|].
  destruct ctx; [|done]. by destruct (selectMaxInviteIDSQL (view txn)).
Qed.

(** X1: when [SelectMaxInviteID] returns without error it has not touched
    the transaction, the value is zero on an empty table, and on a table
    with rows it is the id of one of the rows and no row has a higher
    id. *)
Theorem X1_SelectMaxInviteID_highest_id_or_zero (ctx : Context) (txn txn' : Tx) (m : Z) :
  SelectMaxInviteID ctx txn = Returns (m, None) txn' →
  txn' = txn ∧
  (syncapi_invite_events (view txn) = [] → m = 0) ∧
  (syncapi_invite_events (view txn) ≠ [] →
     (∃ row, row ∈ syncapi_invite_events (view txn) ∧ id row = m) ∧
     Forall (λ r, id r ≤ m) (syncapi_invite_events (view txn))).
Proof.
  rewrite SelectMaxInviteID_cases. destruct (done txn); [congruence|].
  destruct ctx; [|congruence].
  destruct (selectMaxInviteIDSQL (view txn)) as [m'|] eqn:Hmax; intros [= <- <-].
  - split; [done|]. apply selectMaxInviteIDSQL_Some in Hmax as [(row & Hrow & Hid) Hup].
    split.
    + intros Hnil. rewrite Hnil in Hrow. by apply elem_of_nil in Hrow.
    + intros _. split; [by exists row|done].
  - split; [done|]. apply selectMaxInviteIDSQL_None in Hmax. split; done.
Qed.

Lemma X1_SelectMaxInviteID_highest_id_or_zero_witness :
  SelectMaxInviteID Background Sample.three_retired
    = Returns (4, None) Sample.three_retired ∧
  Forall (λ r, id r ≤ 4) (syncapi_invite_events (view Sample.three_retired)).
Proof.
  assert (H : SelectMaxInviteID Background Sample.three_retired
              = Returns (4, None) Sample.three_retired) by (vm_compute; reflexivity).
  split; [exact H|].
  apply (X1_SelectMaxInviteID_highest_id_or_zero Background Sample.three_retired
           Sample.three_retired 4 H).
  vm_compute. discriminate.
Defined.

(** X2: insert, then read the highest id.  On a transaction whose ids were
    all handed out by the counter, right after an insert that returned
    position [p] without error, [SelectMaxInviteID] returns [p]. *)
Theorem X2_SelectMaxInviteID_after_insert
    (json_Marshal : HeaderedEvent → fallible string) (ctx : Context)
    (inviteEvent : HeaderedEvent) (txn txn' : Tx) (p : StreamPosition) :
  positions_minted (view txn) →
  InsertInviteEvent json_Marshal ctx inviteEvent txn = Returns (p, None) txn' →
  SelectMaxInviteID Background txn' = Returns (p, None) txn'.
Proof.
  intros Hm H.
  apply InsertInviteEvent_success_inv in H
    as (Hd & Hctx & Hp & k & j & Hk & Hj & Hfresh & ->).
  rewrite SelectMaxInviteID_cases. cbn [done view].
  rewrite (proj2 (selectMaxInviteIDSQL_Some _ p)); [done|].
  cbn [syncapi_invite_events]. split.
  - exists (invite_row p inviteEvent k j). split; [|done].
    apply elem_of_app. right. apply list_elem_of_here.
  - apply Forall_app. split.
    + eapply Forall_impl; [exact Hm|]. intros r Hr. cbv beta in Hr. lia.
    + constructor; [simpl; lia|constructor].
Qed.

Lemma X2_SelectMaxInviteID_after_insert_witness :
  positions_minted (view Sample.three) ∧
  SelectMaxInviteID Background
    (state_of (InsertInviteEvent Codec.encode Background Sample.invite2 Sample.three))
  = Returns (4, None)
      (state_of (InsertInviteEvent Codec.encode Background Sample.invite2 Sample.three)).
Proof.
  assert (Hm : positions_minted (view Sample.three)).
  { vm_compute. repeat constructor; discriminate. }
  split; [exact Hm|].
  apply (X2_SelectMaxInviteID_after_insert Codec.encode Background Sample.invite2
           Sample.three _ 4 Hm).
  vm_compute. reflexivity.
Defined.

(** ** More on the UPDATE of a retirement *)

(** A successful UPDATE changed each matching row in place and nothing
    else. *)
Lemma sql_update_shape where' set seen rest out :
  sql_update where' set seen rest = Ok out →
  out = seen ++ ((λ r, if where' r then set r else r) <$> rest).
Proof.
  revert seen. induction rest as [|r rest IH]; intros seen H; simpl in H.
  - inversion H. by rewrite app_nil_r.
  - rewrite fmap_cons. destruct (where' r).
    + case_decide; [congruence|]. rewrite (IH _ H), <- app_assoc. done.
    + rewrite (IH _ H), <- app_assoc. done.
Qed.

(** Once a visited row holds the new id, the next matching row that has
    another id cannot take it. *)
Lemma sql_update_conflict_seen where' p seen rest r :
  p ∈ ids seen →
  r ∈ rest → where' r = true → id r ≠ p →
  sql_update where' (mark_deleted p) seen rest = Err ErrConstraint.
Proof.
  intros Hseen Hr Hw Hid. revert seen Hseen.
  induction rest as [|x rest IH]; intros seen Hseen; [by apply elem_of_nil in Hr|].
  assert (Hgrow : ∀ y, p ∈ ids (seen ++ [y])).
  { intros y. unfold ids in *. rewrite fmap_app. apply elem_of_app. by left. }
  simpl. destruct (where' x) eqn:Hx.
  - case_decide as Hc; [done|]. apply elem_of_cons in Hr as [->|Hr].
    + exfalso. apply Hc. split; [done|]. unfold ids in *. rewrite fmap_app.
      apply elem_of_app. by left.
    + by apply IH.
  - apply elem_of_cons in Hr as [->|Hr]; [congruence|]. by apply IH.
Qed.

Lemma sql_update_two_hits where' p seen l1 r1 l2 r2 l3 :
  p ∉ ids (seen ++ l1 ++ r1 :: l2 ++ r2 :: l3) →
  where' r1 = true → where' r2 = true →
  sql_update where' (mark_deleted p) seen (l1 ++ r1 :: l2 ++ r2 :: l3) = Err ErrConstraint.
Proof.
  intros Hfresh H1 H2. revert seen Hfresh.
  assert (Hlast : ∀ y s, p ∈ ids (s ++ [mark_deleted p y])).
  { intros y s. unfold ids. rewrite fmap_app. apply elem_of_app. right.
    apply list_elem_of_here. }
  induction l1 as [|x l1 IH]; intros seen Hfresh; cbn [app sql_update].
  - rewrite H1. case_decide as Hc.
    { exfalso. destruct Hc as [_ Hc]. apply Hfresh. cbn [app]. rewrite ids_middle.
      by apply list_elem_of_further. }
    apply (sql_update_conflict_seen _ _ _ _ r2); [apply Hlast| |done|].
    + apply elem_of_app. right. apply list_elem_of_here.
    + intros Heq. apply Hfresh. unfold ids. rewrite !fmap_app, !fmap_cons, fmap_app, fmap_cons.
      rewrite <- Heq. apply elem_of_app. right. apply list_elem_of_further.
      apply elem_of_app. right. apply list_elem_of_here.
  - assert (Hfresh' : ∀ y, id y ≠ p → p ∉ ids ((seen ++ [y]) ++ l1 ++ r1 :: l2 ++ r2 :: l3)).
    { intros y Hy Hin. apply Hfresh. unfold ids in *.
      rewrite <- app_assoc in Hin. cbn [app] in Hin.
      rewrite fmap_app, fmap_cons in Hin. rewrite fmap_app. cbn [app]. rewrite fmap_cons.
      apply elem_of_app in Hin as [Hin|Hin]; apply elem_of_app; [by left|right].
      apply elem_of_cons in Hin as [Hin|Hin]; [done|]. by apply list_elem_of_further. }
    destruct (where' x) eqn:Hx.
    + case_decide as Hc.
      { exfalso. destruct Hc as [_ Hc]. apply Hfresh. cbn [app]. rewrite ids_middle.
        by apply list_elem_of_further. }
      apply (sql_update_conflict_seen _ _ _ _ r1); [apply Hlast| |done|].
      * apply elem_of_app. right. apply list_elem_of_here.
      * intros Heq. apply Hfresh. unfold ids. rewrite fmap_app. cbn [app].
        rewrite fmap_cons, fmap_app, fmap_cons. rewrite <- Heq.
        apply elem_of_app. right. apply list_elem_of_further.
        apply elem_of_app. right. apply list_elem_of_here.
    + apply IH. apply Hfresh'. intros Heq. apply Hfresh. unfold ids.
      rewrite fmap_app. cbn [app]. rewrite fmap_cons. rewrite <- Heq.
      apply elem_of_app. right. apply list_elem_of_here.
Qed.

Lemma DeleteInviteEvent_two_active eid txn l1 r1 l2 r2 l3 :
  done txn = false →
  positions_minted (view txn) →
  syncapi_invite_events (view txn) = l1 ++ r1 :: l2 ++ r2 :: l3 →
  is_active_event eid r1 = true →
  is_active_event eid r2 = true →
  DeleteInviteEvent Background eid txn
    = Returns (stream_id (view txn) + 1, Some ErrConstraint)
        {| done := false;
           view := {| stream_id := stream_id (view txn) + 1;
                      syncapi_invite_events := syncapi_invite_events (view txn) |} |}.
Proof.
  intros Hd Hm Hrows H1 H2. rewrite DeleteInviteEvent_live by done. cbv zeta.
  rewrite Hrows at 1. rewrite sql_update_two_hits; try done.
  cbn [app]. rewrite <- Hrows. by apply minted_fresh.
Qed.

(** X4: when two undeleted rows carry the event id, retiring it on an open
    transaction fails: both rows would take the one new id, the primary
    key refuses, [DeleteInviteEvent] returns the minted position together
    with the constraint error, every row stays as it was, and the position
    is used up. *)
Theorem X4_delete_with_two_active_rows_fails
    (inviteEventID : string) (txn : Tx) (l1 l2 l3 : list InviteRow) (r1 r2 : InviteRow) :
  done txn = false →
  positions_minted (view txn) →
  syncapi_invite_events (view txn) = l1 ++ r1 :: l2 ++ r2 :: l3 →
  is_active_event inviteEventID r1 = true →
  is_active_event inviteEventID r2 = true →
  DeleteInviteEvent Background inviteEventID txn
    = Returns (stream_id (view txn) + 1, Some ErrConstraint)
        {| done := false;
           view := {| stream_id := stream_id (view txn) + 1;
                      syncapi_invite_events := syncapi_invite_events (view txn) |} |}.
Proof. apply DeleteInviteEvent_two_active. Qed.

Lemma X4_delete_with_two_active_rows_fails_witness :
  DeleteInviteEvent Background "$1"
    (state_of (InsertInviteEvent Codec.encode Background Sample.invite1 Sample.three))
  = Returns (5, Some ErrConstraint)
      {| done := false;
         view := {| stream_id := 5;
                    syncapi_invite_events :=
                      syncapi_invite_events (view (state_of
                        (InsertInviteEvent Codec.encode Background Sample.invite1
                           Sample.three))) |} |}.
Proof.
  apply (X4_delete_with_two_active_rows_fails "$1"
           (state_of (InsertInviteEvent Codec.encode Background Sample.invite1 Sample.three))
           [] (skipn 1 (syncapi_invite_events (view Sample.three))) []
           Sample.row1 (invite_row 4 Sample.invite1 "@u" (Codec.text Sample.invite1))).
  - reflexivity.
  - vm_compute. repeat constructor; discriminate.
  - vm_compute. reflexivity.
  - reflexivity.
  - reflexivity.
Defined.

(** X5: [InsertInviteEvent] does not look at the event id, so the same
    invite can be inserted twice; both rows are then active, and retiring
    the invite fails with the constraint error and retires neither. *)
Theorem X5_invite_inserted_twice_cannot_be_retired
    (json_Marshal : HeaderedEvent → fallible string) (inviteEvent : HeaderedEvent)
    (txn : Tx) (k j : string) :
  done txn = false →
  positions_minted (view txn) →
  json_Marshal inviteEvent = Ok j →
  StateKey inviteEvent = Some k →
  ∃ txn1 txn2 txn3,
    InsertInviteEvent json_Marshal Background inviteEvent txn
      = Returns (stream_id (view txn) + 1, None) txn1 ∧
    InsertInviteEvent json_Marshal Background inviteEvent txn1
      = Returns (stream_id (view txn) + 2, None) txn2 ∧
    syncapi_invite_events (view txn2)
      = syncapi_invite_events (view txn)
        ++ [invite_row (stream_id (view txn) + 1) inviteEvent k j;
            invite_row (stream_id (view txn) + 2) inviteEvent k j] ∧
    DeleteInviteEvent Background (EventID inviteEvent) txn2
      = Returns (stream_id (view txn) + 3, Some ErrConstraint) txn3 ∧
    syncapi_invite_events (view txn3) = syncapi_invite_events (view txn2).
Proof.
  intros Hd Hm Hj Hk.
  set (c := stream_id (view txn)). set (rows := syncapi_invite_events (view txn)).
  set (txn1 := {| done := false;
                  view := {| stream_id := c + 1;
                             syncapi_invite_events :=
                               rows ++ [invite_row (c + 1) inviteEvent k j] |} |}).
  set (txn2 := {| done := false;
                  view := {| stream_id := c + 2;
                             syncapi_invite_events :=
                               rows ++ [invite_row (c + 1) inviteEvent k j;
                                        invite_row (c + 2) inviteEvent k j] |} |}).
  assert (Hm1 : positions_minted (view txn1)).
  { unfold positions_minted. cbn. apply Forall_app. split.
    - eapply Forall_impl; [exact Hm|]. intros r Hr. cbv beta in Hr. fold c in Hr. lia.
    - constructor; [simpl; lia|constructor]. }
  assert (Hm2 : positions_minted (view txn2)).
  { unfold positions_minted. cbn. apply Forall_app. split.
    - eapply Forall_impl; [exact Hm|]. intros r Hr. cbv beta in Hr. fold c in Hr. lia.
    - repeat constructor; simpl; lia. }
  assert (Hactive : ∀ p, is_active_event (EventID inviteEvent)
                           (invite_row p inviteEvent k j) = true).
  { intros p. unfold is_active_event, invite_row. simpl.
    by rewrite bool_decide_eq_true_2. }
  exists txn1, txn2,
    {| done := false;
       view := {| stream_id := c + 3;
                  syncapi_invite_events := syncapi_invite_events (view txn2) |} |}.
  split; [by apply InsertInviteEvent_ok|]. split.
  { rewrite (InsertInviteEvent_ok json_Marshal inviteEvent txn1 k j) by done.
    cbn [view stream_id syncapi_invite_events txn1]. rewrite <- app_assoc. cbn [app].
    replace (c + 1 + 1) with (c + 2) by lia. reflexivity. }
  split; [reflexivity|]. split; [|reflexivity].
  rewrite (DeleteInviteEvent_two_active (EventID inviteEvent) txn2 rows
             (invite_row (c + 1) inviteEvent k j) []
             (invite_row (c + 2) inviteEvent k j) []);
    try done.
  cbn [view stream_id txn2]. replace (c + 2 + 1) with (c + 3) by lia. reflexivity.
Qed.

Lemma X5_invite_inserted_twice_cannot_be_retired_witness :
  ∃ txn2 txn3,
    syncapi_invite_events (view txn2)
      = [invite_row 1 Sample.invite1 "@u" (Codec.text Sample.invite1);
         invite_row 2 Sample.invite1 "@u" (Codec.text Sample.invite1)] ∧
    DeleteInviteEvent Background "$1" txn2 = Returns (3, Some ErrConstraint) txn3 ∧
    syncapi_invite_events (view txn3) = syncapi_invite_events (view txn2).
Proof.
  destruct (X5_invite_inserted_twice_cannot_be_retired Codec.encode Sample.invite1
              Sample.fresh "@u" (Codec.text Sample.invite1))
    as (txn1 & txn2 & txn3 & _ & _ & Hrows & Hdel & Hsame).
  - reflexivity.
  - constructor.
  - reflexivity.
  - reflexivity.
  - exists txn2, txn3. split; [exact Hrows|]. split; [exact Hdel|exact Hsame].
Defined.

(** ** What the writing calls leave alone *)

Lemma DeleteInviteEvent_rows ctx eid txn :
  syncapi_invite_events (view (state_of (DeleteInviteEvent ctx eid txn)))
    = syncapi_invite_events (view txn)
  ∨ syncapi_invite_events (view (state_of (DeleteInviteEvent ctx eid txn)))
    = retire_row (stream_id (view txn) + 1) eid <$> syncapi_invite_events (view txn).
Proof.
  destruct (done txn) eqn:Hd.
  { destruct (DeleteInviteEvent_stopped ctx eid txn) as [err ->]; [by left|]. by left. }
  destruct ctx.
  2:{ destruct (DeleteInviteEvent_stopped Canceled eid txn) as [err ->]; [by right|].
      by left. }
  rewrite DeleteInviteEvent_live by done. cbv zeta.
  destruct (sql_update _ _ _ _) as [rows|err] eqn:Hupd; cbn [state_of view].
  - right. apply sql_update_shape in Hupd. by rewrite Hupd.
  - by left.
Qed.

(** X6: whatever its outcome, [DeleteInviteEvent] removes no row and adds
    none, keeps every row at its place in the table, leaves alone each row
    that is already deleted or belongs to another event, never changes the
    event id, room, user or stored event of a row, and never resets a
    deleted flag. *)
Theorem X6_delete_touches_only_active_rows_of_event
    (ctx : Context) (inviteEventID : string) (txn : Tx) :
  length (syncapi_invite_events (view (state_of (DeleteInviteEvent ctx inviteEventID txn))))
    = length (syncapi_invite_events (view txn)) ∧
  ∀ (i : nat) (r : InviteRow),
    syncapi_invite_events (view txn) !! i = Some r →
    ∃ r',
      syncapi_invite_events (view (state_of (DeleteInviteEvent ctx inviteEventID txn))) !! i
        = Some r' ∧
      (is_active_event inviteEventID r = false → r' = r) ∧
      event_id r' = event_id r ∧ room_id r' = room_id r ∧
      target_user_id r' = target_user_id r ∧
      headered_event_json r' = headered_event_json r ∧
      (deleted r = true → deleted r' = true).
Proof.
  destruct (DeleteInviteEvent_rows ctx inviteEventID txn) as [->| ->].
  - split; [done|]. intros i r Hr. exists r. done.
  - split; [by rewrite length_fmap|]. intros i r Hr.
    exists (retire_row (stream_id (view txn) + 1) inviteEventID r).
    rewrite list_lookup_fmap, Hr. split; [done|]. unfold retire_row.
    destruct (is_active_event inviteEventID r); [|done]. split_and!; done.
Qed.

Lemma InsertInviteEvent_rows (json_Marshal : HeaderedEvent → fallible string) ctx e txn :
  syncapi_invite_events (view (state_of (InsertInviteEvent json_Marshal ctx e txn)))
    = syncapi_invite_events (view txn)
  ∨ ∃ p k j,
      InsertInviteEvent json_Marshal ctx e txn
        = Returns (p, None) (state_of (InsertInviteEvent json_Marshal ctx e txn)) ∧
      StateKey e = Some k ∧ json_Marshal e = Ok j ∧
      syncapi_invite_events (view (state_of (InsertInviteEvent json_Marshal ctx e txn)))
        = syncapi_invite_events (view txn) ++ [invite_row p e k j].
Proof.
  destruct (done txn) eqn:Hd.
  { destruct (InsertInviteEvent_stopped json_Marshal ctx e txn) as [err ->]; [by left|].
    by left. }
  destruct ctx.
  2:{ destruct (InsertInviteEvent_stopped json_Marshal Canceled e txn) as [err ->];
        [by right|]. by left. }
  rewrite InsertInviteEvent_live by done. cbv zeta.
  destruct (json_Marshal e) as [j|err]; [|by left].
  destruct (StateKey e) as [k|]; [|by left].
  unfold sql_insert. case_decide; [by left|]. right.
  exists (stream_id (view txn) + 1), k, j. done.
Qed.

(** X7: an insert changes the rows only when it returns without error,
    and then it has appended exactly the one row of the event, under the
    returned position and not deleted, after all rows that were there;
    an insert that returns an error or faults leaves every row as it
    was. *)
Theorem X7_insert_appends_one_row_or_nothing
    (json_Marshal : HeaderedEvent → fallible string) (ctx : Context)
    (inviteEvent : HeaderedEvent) (txn : Tx) :
  (∃ p k j txn',
     InsertInviteEvent json_Marshal ctx inviteEvent txn = Returns (p, None) txn' ∧
     StateKey inviteEvent = Some k ∧ json_Marshal inviteEvent = Ok j ∧
     syncapi_invite_events (view txn')
       = syncapi_invite_events (view txn) ++ [invite_row p inviteEvent k j])
  ∨ ((∀ p txn', InsertInviteEvent json_Marshal ctx inviteEvent txn ≠ Returns (p, None) txn') ∧
     syncapi_invite_events (view (state_of (InsertInviteEvent json_Marshal ctx inviteEvent txn)))
       = syncapi_invite_events (view txn)).
Proof.
  destruct (InsertInviteEvent json_Marshal ctx inviteEvent txn) as [[p [err|]] txn'|txn']
    eqn:Hcall.
  - right. split; [congruence|].
    destruct (InsertInviteEvent_rows json_Marshal ctx inviteEvent txn)
      as [Hsame|(p' & k & j & Hret & _)]; rewrite Hcall in *; [done|congruence].
  - left. apply InsertInviteEvent_success_inv in Hcall as Hinv.
    destruct Hinv as (_ & _ & _ & k & j & Hk & Hj & _ & ->).
    exists p, k, j. eexists. split; [reflexivity|]. done.
  - right. split; [congruence|].
    destruct (InsertInviteEvent_rows json_Marshal ctx inviteEvent txn)
      as [Hsame|(p' & k & j & Hret & _)]; rewrite Hcall in *; [done|congruence].
Qed.

(** X8: the primary key and the bound of every id by the counter are kept
    by every sequence of inserts and retirements, whatever the contexts,
    the events and the outcomes of the calls (errors and faults included);
    they hold on the freshly created table. *)
Theorem X8_invariants_kept_by_every_call_sequence
    (json_Marshal : HeaderedEvent → fallible string) (calls : list Call) (txn : Tx) :
  primary_key (view txn) ∧ positions_minted (view txn) →
  primary_key (view (after_calls json_Marshal calls txn)) ∧
  positions_minted (view (after_calls json_Marshal calls txn)).
Proof.
  revert txn. induction calls as [|c calls IH]; intros txn Hinv; [done|].
  cbn [after_calls foldl]. apply IH. destruct c as [ctx e|ctx eid]; cbn [after_call].
  - by apply InsertInviteEvent_keeps_invariants.
  - by apply DeleteInviteEvent_keeps_invariants.
Qed.

Lemma X8_invariants_kept_by_every_call_sequence_witness :
  primary_key (view (after_calls Codec.strict
    [CallInsert Background Sample.invite1; CallInsert Background Sample.message;
     CallDelete Canceled "$1"; CallInsert Background Sample.invite1;
     CallDelete Background "$1"] Sample.fresh)) ∧
  positions_minted (view (after_calls Codec.strict
    [CallInsert Background Sample.invite1; CallInsert Background Sample.message;
     CallDelete Canceled "$1"; CallInsert Background Sample.invite1;
     CallDelete Background "$1"] Sample.fresh)).
Proof.
  apply (X8_invariants_kept_by_every_call_sequence Codec.strict).
  exact schema_invariants.
Defined.

(** X9: on a transaction whose ids were all handed out by the counter, an
    insert never fails on the primary key: an error it returns is the
    finished transaction, the cancelled context or the encoder's own
    error. *)
Theorem X9_insert_error_is_never_a_key_conflict
    (json_Marshal : HeaderedEvent → fallible string) (ctx : Context)
    (inviteEvent : HeaderedEvent) (txn txn' : Tx) (p : StreamPosition) (err : error) :
  positions_minted (view txn) →
  InsertInviteEvent json_Marshal ctx inviteEvent txn = Returns (p, Some err) txn' →
  (done txn = true ∧ err = ErrTxDone) ∨
  (done txn = false ∧ ctx = Canceled ∧ err = ErrCanceled) ∨
  (done txn = false ∧ ctx = Background ∧ json_Marshal inviteEvent = Err err).
Proof.
  intros Hm H. destruct (done txn) eqn:Hd.
  { left. unfold InsertInviteEvent in H. unfold mbind at 1 in H. unfold Go_bind in H.
    rewrite nextInviteID_done in H by done. inversion H. done. }
  right. destruct ctx.
  - right. rewrite InsertInviteEvent_live in H by done. cbv zeta in H.
    destruct (json_Marshal inviteEvent) as [j|err'].
    + destruct (StateKey inviteEvent) as [k|]; [|congruence].
      rewrite sql_insert_fresh in H; [congruence|]. simpl. by apply minted_fresh.
    + inversion H. done.
  - left. unfold InsertInviteEvent in H. unfold mbind at 1 in H. unfold Go_bind in H.
    rewrite nextInviteID_canceled in H by done. inversion H. done.
Qed.

Lemma X9_insert_error_is_never_a_key_conflict_witness :
  positions_minted (view Sample.three) ∧
  InsertInviteEvent Codec.strict Background Sample.message Sample.three
    = Returns (4, Some ErrJSON)
        (state_of (InsertInviteEvent Codec.strict Background Sample.message Sample.three)) ∧
  Codec.strict Sample.message = Err ErrJSON.
Proof.
  assert (Hm : positions_minted (view Sample.three)).
  { vm_compute. repeat constructor; discriminate. }
  assert (H : InsertInviteEvent Codec.strict Background Sample.message Sample.three
    = Returns (4, Some ErrJSON)
        (state_of (InsertInviteEvent Codec.strict Background Sample.message Sample.three)))
    by (vm_compute; reflexivity).
  split; [exact Hm|]. split; [exact H|].
  destruct (X9_insert_error_is_never_a_key_conflict Codec.strict Background
              Sample.message Sample.three _ 4 ErrJSON Hm H)
    as [[Hd _]|[(_ & Hc & _)|(_ & _ & He)]].
  - discriminate Hd.
  - discriminate Hc.
  - exact He.
Defined.

(** X10: a position is used up by an insert that fails to encode its
    event.  The next insert on the same transaction gets the position
    after it, and no row carries the position that was lost: the ids in
    the table then have a gap. *)
Theorem X10_failed_insert_leaves_gap
    (json_Marshal : HeaderedEvent → fallible string) (e1 e2 : HeaderedEvent)
    (txn : Tx) (err : error) (k j : string) :
  done txn = false →
  positions_minted (view txn) →
  json_Marshal e1 = Err err →
  json_Marshal e2 = Ok j →
  StateKey e2 = Some k →
  ∃ txn1 txn2,
    InsertInviteEvent json_Marshal Background e1 txn
      = Returns (stream_id (view txn) + 1, Some err) txn1 ∧
    InsertInviteEvent json_Marshal Background e2 txn1
      = Returns (stream_id (view txn) + 2, None) txn2 ∧
    syncapi_invite_events (view txn2)
      = syncapi_invite_events (view txn) ++ [invite_row (stream_id (view txn) + 2) e2 k j] ∧
    (stream_id (view txn) + 1 ∉ ids (syncapi_invite_events (view txn2))).
Proof.
  intros Hd Hm H1 H2 Hk.
  exists {| done := false; view := bump_stream_id (view txn) |}.
  eexists. split.
  { rewrite InsertInviteEvent_live by done. cbv zeta. by rewrite H1. }
  assert (Hm1 : positions_minted (bump_stream_id (view txn))).
  { unfold positions_minted in *. cbn [bump_stream_id stream_id syncapi_invite_events].
    eapply Forall_impl; [exact Hm|]. intros r Hr. cbv beta in Hr. lia. }
  split.
  { rewrite (InsertInviteEvent_ok json_Marshal e2 _ k j) by done.
    cbn [view bump_stream_id stream_id syncapi_invite_events].
    replace (stream_id (view txn) + 1 + 1) with (stream_id (view txn) + 2) by lia.
    reflexivity. }
  cbn [view syncapi_invite_events]. split; [done|].
  unfold ids. rewrite fmap_app. intros Hin. apply elem_of_app in Hin as [Hin|Hin].
  - by apply (minted_fresh _ Hm).
  - cbn in Hin. apply list_elem_of_singleton in Hin. lia.
Qed.

Lemma X10_failed_insert_leaves_gap_witness :
  ∃ txn1 txn2,
    InsertInviteEvent Codec.strict Background Sample.message Sample.fresh
      = Returns (1, Some ErrJSON) txn1 ∧
    InsertInviteEvent Codec.strict Background Sample.invite1 txn1
      = Returns (2, None) txn2 ∧
    ids (syncapi_invite_events (view txn2)) = [2].
Proof.
  destruct (X10_failed_insert_leaves_gap Codec.strict Sample.message Sample.invite1
              Sample.fresh ErrJSON "@u" (Codec.text Sample.invite1))
    as (txn1 & txn2 & H1 & H2 & Hrows & _).
  - reflexivity.
  - constructor.
  - reflexivity.
  - reflexivity.
  - reflexivity.
  - exists txn1, txn2. split; [exact H1|]. split; [exact H2|]. by rewrite Hrows.
Defined.

(** ** More on the range scan *)

Lemma first_in_room_is_highest k rows row :
  StronglySorted id_desc rows →
  first_in_room k rows = Some row →
  ∀ row', row' ∈ rows → room_id row' = k → id row' ≤ id row.
Proof.
  induction rows as [|x rows IH]; intros Hs Hfirst row' Hin Hroom.
  - by apply elem_of_nil in Hin.
  - apply StronglySorted_cons in Hs as [Hx Hs].
    destruct (decide (room_id x = k)) as [Hxk|Hxk].
    + rewrite first_in_room_cons_same in Hfirst by done. inversion Hfirst; subst x.
      apply elem_of_cons in Hin as [->|Hin]; [lia|].
      rewrite Forall_forall in Hx. by apply Hx.
    + rewrite first_in_room_cons_other in Hfirst by done.
      apply elem_of_cons in Hin as [->|Hin]; [done|]. by apply IH.
Qed.

Section ScanMore.

Variable json_Unmarshal : string → fallible HeaderedEvent.

(** The scan gets through when the first row of every room not seen
    before decodes; rows behind it are never decoded. *)
Lemma scan_rows_succeeds rows result retired :
  (∀ k row, result !! k = None → retired !! k = None →
            first_in_room k rows = Some row →
            ∃ event, json_Unmarshal (headered_event_json row) = Ok event) →
  ∃ out, scan_rows json_Unmarshal (columns <$> rows) result retired = Ok out.
Proof.
  revert result retired. induction rows as [|r rows IH]; intros result retired Hdec.
  - eexists. reflexivity.
  - cbn [fmap list_fmap columns scan_rows]. fold (columns <$> rows).
    destruct (bool_decide (is_Some (retired !! room_id r))
              || bool_decide (is_Some (result !! room_id r))) eqn:Hseen.
    + apply IH. intros k row Hres Hret Hfirst. apply (Hdec k row Hres Hret).
      rewrite first_in_room_cons_other; [done|]. intros Heq. subst k.
      apply orb_true_iff in Hseen as [Hs|Hs];
        apply bool_decide_eq_true in Hs; destruct Hs as [? Hs]; congruence.
    + apply orb_false_iff in Hseen as [Hs1 Hs2].
      apply bool_decide_eq_false in Hs1. apply bool_decide_eq_false in Hs2.
      rewrite <- eq_None_not_Some in Hs1. rewrite <- eq_None_not_Some in Hs2.
      destruct (Hdec (room_id r) r Hs2 Hs1) as [event ->].
      { by apply first_in_room_cons_same. }
      assert (Hrest : ∀ k row, room_id r ≠ k → result !! k = None → retired !! k = None →
                first_in_room k rows = Some row →
                ∃ event, json_Unmarshal (headered_event_json row) = Ok event).
      { intros k row Hne Hres Hret Hfirst. apply (Hdec k row Hres Hret).
        by rewrite first_in_room_cons_other. }
      destruct (deleted r); apply IH; intros k row Hres Hret Hfirst.
      * destruct (decide (room_id r = k)) as [<-|Hne].
        { by rewrite lookup_insert_eq in Hret. }
        rewrite lookup_insert_ne in Hret by done. by apply (Hrest k).
      * destruct (decide (room_id r = k)) as [<-|Hne].
        { by rewrite lookup_insert_eq in Hres. }
        rewrite lookup_insert_ne in Hres by done. by apply (Hrest k).
Qed.

(** A successful scan files the highest row of each room in the range. *)
Lemma scan_files_highest ctx a1 r txn txn' result retired row :
  primary_key (view txn) →
  SelectInviteEventsInRange json_Unmarshal ctx a1 r txn = Returns (Ok (result, retired)) txn' →
  row ∈ syncapi_invite_events (view txn) →
  in_range a1 (Low r) (High r) row →
  (∀ row', row' ∈ syncapi_invite_events (view txn) →
           in_range a1 (Low r) (High r) row' →
           room_id row' = room_id row → id row' ≤ id row) →
  filed json_Unmarshal row result retired.
Proof.
  intros Hpk Hsel Hin Hrange Hmax.
  rewrite SelectInviteEventsInRange_cases in Hsel.
  destruct (done txn); [congruence|]. destruct ctx; [|congruence].
  assert (Hscan : scan_rows json_Unmarshal
            (columns <$> range_rows a1 (Low r) (High r) (view txn)) ∅ ∅
            = Ok (result, retired)) by congruence.
  destruct (scan_rows_spec _ _ _ _ _ _ Hscan (room_id row)) as [_ Hk].
  rewrite (first_in_room_highest (room_id row) _ row) in Hk.
  - apply Hk; apply lookup_empty.
  - apply order_by_id_desc_sorted.
  - by apply range_rows_primary_key.
  - apply elem_of_range_rows. unfold in_range in Hrange. tauto.
  - done.
  - intros row' Hin' Hroom. apply elem_of_range_rows in Hin'.
    apply Hmax; [tauto| |done]. unfold in_range. tauto.
Qed.

(** X11: a scan never files a room twice: no room id is a key of both the
    map of active invites and the map of retired invites. *)
Theorem X11_scan_maps_share_no_room
    (ctx : Context) (targetUserID : string) (r : Range) (txn txn' : Tx)
    (result retired : gmap string HeaderedEvent) :
  SelectInviteEventsInRange json_Unmarshal ctx targetUserID r txn
    = Returns (Ok (result, retired)) txn' →
  result ##ₘ retired.
Proof.
  intros Hsel. rewrite SelectInviteEventsInRange_cases in Hsel.
  destruct (done txn); [congruence|]. destruct ctx; [|congruence].
  assert (Hscan : scan_rows json_Unmarshal
            (columns <$> range_rows targetUserID (Low r) (High r) (view txn)) ∅ ∅
            = Ok (result, retired)) by congruence.
  apply map_disjoint_spec. intros k x y Hx Hy.
  destruct (scan_rows_spec _ _ _ _ _ _ Hscan k) as [_ Hk].
  specialize (Hk (lookup_empty _) (lookup_empty _)).
  destruct (first_in_room k (range_rows targetUserID (Low r) (High r) (view txn)))
    as [row|] eqn:Hfirst.
  - apply first_in_room_elem in Hfirst as [_ <-].
    destruct Hk as (event & _ & Hk). destruct (deleted row); destruct Hk; congruence.
  - destruct Hk. congruence.
Qed.

(** X12: on an open transaction, a scan over an empty range (the upper
    bound not above the lower bound) or for a user without rows returns
    two empty maps and no error. *)
Theorem X12_scan_of_nothing_is_empty (targetUserID : string) (r : Range) (txn : Tx) :
  done txn = false →
  High r ≤ Low r ∨
    Forall (λ row, target_user_id row ≠ targetUserID) (syncapi_invite_events (view txn)) →
  SelectInviteEventsInRange json_Unmarshal Background targetUserID r txn
    = Returns (Ok (∅, ∅)) txn.
Proof.
  intros Hd Hnone. rewrite SelectInviteEventsInRange_cases, Hd.
  unfold range_rows. rewrite filter_none; [done|].
  destruct Hnone as [Hle|Huser].
  - apply Forall_forall. intros row _. unfold in_range. lia.
  - eapply Forall_impl; [exact Huser|]. intros row Hrow [Hu _]. by apply Hrow.
Qed.

(** X13: under the primary key, a scan on an open transaction returns
    without error exactly when the highest-position row of every room in
    the range decodes.  Rows below the highest one of their room are never
    decoded, so a stored event that does not decode fails the scan only
    while no later row of its room is in the range. *)
Theorem X13_scan_succeeds_iff_highest_rows_decode
    (targetUserID : string) (r : Range) (txn : Tx) :
  done txn = false →
  primary_key (view txn) →
  (∃ result retired,
     SelectInviteEventsInRange json_Unmarshal Background targetUserID r txn
       = Returns (Ok (result, retired)) txn)
  ↔ (∀ row,
       row ∈ syncapi_invite_events (view txn) →
       in_range targetUserID (Low r) (High r) row →
       (∀ row', row' ∈ syncapi_invite_events (view txn) →
                in_range targetUserID (Low r) (High r) row' →
                room_id row' = room_id row → id row' ≤ id row) →
       ∃ event, json_Unmarshal (headered_event_json row) = Ok event).
Proof.
  intros Hd Hpk. split.
  - intros (result & retired & Hsel) row Hin Hrange Hmax.
    destruct (scan_files_highest _ _ _ _ _ _ _ row Hpk Hsel Hin Hrange Hmax)
      as (event & Hdec & _).
    by exists event.
  - intros Hdec. rewrite SelectInviteEventsInRange_cases, Hd.
    destruct (scan_rows_succeeds (range_rows targetUserID (Low r) (High r) (view txn)) ∅ ∅)
      as [[result retired] ->]; [|by exists result, retired].
    intros k row _ _ Hfirst.
    pose proof (first_in_room_is_highest _ _ _ (order_by_id_desc_sorted _) Hfirst) as Hhigh.
    apply first_in_room_elem in Hfirst as [Hin Hroom].
    apply elem_of_range_rows in Hin as Hin'.
    apply Hdec; [tauto|unfold in_range; tauto|].
    intros row' Hrow' Hrange' Hroom'. apply Hhigh; [|congruence].
    apply elem_of_range_rows. unfold in_range in Hrange'. tauto.
Qed.

End ScanMore.

Lemma three_retired_primary_key : primary_key (view Sample.three_retired).
Proof.
  vm_compute. repeat (constructor; [rewrite ?elem_of_cons, ?elem_of_nil; lia|]).
  constructor.
Qed.

Lemma three_retired_scanned :
  SelectInviteEventsInRange Codec.decode Background "@u" (mkRange 0 4) Sample.three_retired
  = Returns (Ok (Sample.scanned.1, Sample.scanned.2)) Sample.three_retired.
Proof. vm_compute. reflexivity. Qed.

Lemma X11_scan_maps_share_no_room_witness :
  SelectInviteEventsInRange Codec.decode Background "@u" (mkRange 0 4) Sample.three_retired
    = Returns (Ok (Sample.scanned.1, Sample.scanned.2)) Sample.three_retired ∧
  Sample.scanned.1 ##ₘ Sample.scanned.2.
Proof.
  split; [exact three_retired_scanned|].
  exact (X11_scan_maps_share_no_room Codec.decode Background "@u" (mkRange 0 4)
           Sample.three_retired Sample.three_retired _ _ three_retired_scanned).
Defined.

Lemma X12_scan_of_nothing_is_empty_witness :
  SelectInviteEventsInRange Codec.decode Background "@u" (mkRange 3 3) Sample.three
    = Returns (Ok (∅, ∅)) Sample.three ∧
  SelectInviteEventsInRange Codec.decode Background "@nobody" (mkRange 0 3) Sample.three
    = Returns (Ok (∅, ∅)) Sample.three.
Proof.
  split.
  - apply (X12_scan_of_nothing_is_empty Codec.decode "@u" (mkRange 3 3) Sample.three).
    + reflexivity.
    + left. simpl. lia.
  - apply (X12_scan_of_nothing_is_empty Codec.decode "@nobody" (mkRange 0 3) Sample.three).
    + reflexivity.
    + right. vm_compute. repeat constructor; discriminate.
Defined.

Lemma X13_scan_succeeds_iff_highest_rows_decode_witness :
  done Sample.three_retired = false ∧
  primary_key (view Sample.three_retired) ∧
  ∃ event, Codec.decode (headered_event_json Sample.row1_retired) = Ok event.
Proof.
  split; [reflexivity|]. split; [exact three_retired_primary_key|].
  apply (proj1 (X13_scan_succeeds_iff_highest_rows_decode Codec.decode "@u" (mkRange 0 4)
                  Sample.three_retired eq_refl three_retired_primary_key)).
  - exists Sample.scanned.1, Sample.scanned.2. exact three_retired_scanned.
  - vm_compute. apply list_elem_of_here.
  - vm_compute. split; [reflexivity|]. split; [reflexivity|]. discriminate.
  - intros row' Hin _ _. change (id Sample.row1_retired) with 4.
    assert (Hall : Forall (λ x, id x ≤ 4) (syncapi_invite_events (view Sample.three_retired))).
    { vm_compute. repeat constructor; discriminate. }
    rewrite Forall_forall in Hall. by apply Hall.
Defined.

(** ** Round trips through the table *)

Section RoundTrips.

Variable json_Marshal : HeaderedEvent → fallible string.
Variable json_Unmarshal : string → fallible HeaderedEvent.

Lemma inserted_tables_invariants txn p e k j :
  primary_key (view txn) → positions_minted (view txn) →
  p = stream_id (view txn) + 1 →
  primary_key {| stream_id := p;
                 syncapi_invite_events :=
                   syncapi_invite_events (view txn) ++ [invite_row p e k j] |} ∧
  Forall (λ r, id r ≤ p) (syncapi_invite_events (view txn) ++ [invite_row p e k j]).
Proof.
  intros Hpk Hm ->. split.
  - unfold primary_key, ids in *. cbn [syncapi_invite_events].
    rewrite fmap_app. apply NoDup_app. split; [done|]. split.
    + intros x Hx Hx'. cbn in Hx'. apply list_elem_of_singleton in Hx'. subst x.
      by apply (minted_fresh _ Hm).
    + apply NoDup_singleton.
  - apply Forall_app. split.
    + eapply Forall_impl; [exact Hm|]. intros r Hr. cbv beta in Hr. lia.
    + constructor; [simpl; lia|constructor].
Qed.

(** X14: insert, then scan.  On an open transaction that keeps the table
    invariants, after an invite is inserted, every scan for the invited
    user (the event's state key) whose range covers the new position and
    that returns without error has the decoded event under its room id in
    the map of active invites, and nothing under that room id in the map
    of retired invites: the new invite overrides whatever the room had
    before. *)
Theorem X14_inserted_invite_scans_as_active
    (inviteEvent event : HeaderedEvent) (txn : Tx) (k j : string) (r : Range) :
  done txn = false →
  primary_key (view txn) →
  positions_minted (view txn) →
  json_Marshal inviteEvent = Ok j →
  StateKey inviteEvent = Some k →
  json_Unmarshal j = Ok event →
  Low r < stream_id (view txn) + 1 ≤ High r →
  ∃ txn1,
    InsertInviteEvent json_Marshal Background inviteEvent txn
      = Returns (stream_id (view txn) + 1, None) txn1 ∧
    ∀ result retired txn',
      SelectInviteEventsInRange json_Unmarshal Background k r txn1
        = Returns (Ok (result, retired)) txn' →
      result !! RoomID inviteEvent = Some event ∧ retired !! RoomID inviteEvent = None.
Proof.
  intros Hd Hpk Hm Hj Hk Hdec Hrange.
  set (txn1 := {| done := false;
                  view := {| stream_id := stream_id (view txn) + 1;
                             syncapi_invite_events :=
                               syncapi_invite_events (view txn)
                               ++ [invite_row (stream_id (view txn) + 1) inviteEvent k j] |} |}).
  exists txn1. split; [by apply InsertInviteEvent_ok|].
  intros result retired txn' Hsel.
  destruct (inserted_tables_invariants txn (stream_id (view txn) + 1) inviteEvent k j
              Hpk Hm eq_refl) as [Hpk1 Hup].
  destruct (scan_files_highest json_Unmarshal Background k r txn1 txn' result retired
              (invite_row (stream_id (view txn) + 1) inviteEvent k j) Hpk1 Hsel)
    as (event' & Hdec' & Hfiled).
  - cbn [view syncapi_invite_events]. apply elem_of_app. right. apply list_elem_of_here.
  - unfold in_range. simpl. split; [done|lia].
  - intros row' Hin _ _. cbn [view syncapi_invite_events] in Hin.
    rewrite Forall_forall in Hup. specialize (Hup row' Hin). simpl in *. lia.
  - simpl in Hdec', Hfiled. rewrite Hdec in Hdec'. inversion Hdec'; subst event'. done.
Qed.

(** X15: insert, retire, then scan.  If no undeleted row carried the event
    id before, then after the invite is inserted and retired, every scan
    for the invited user whose range covers the position of the retirement
    and that returns without error has the decoded event under its room id
    in the map of retired invites and nothing under it in the map of
    active invites. *)
Theorem X15_retired_invite_scans_as_retired
    (inviteEvent event : HeaderedEvent) (txn : Tx) (k j : string) (r : Range) :
  done txn = false →
  primary_key (view txn) →
  positions_minted (view txn) →
  Forall (λ row, is_active_event (EventID inviteEvent) row = false)
         (syncapi_invite_events (view txn)) →
  json_Marshal inviteEvent = Ok j →
  StateKey inviteEvent = Some k →
  json_Unmarshal j = Ok event →
  Low r < stream_id (view txn) + 2 ≤ High r →
  ∃ txn1 txn2,
    InsertInviteEvent json_Marshal Background inviteEvent txn
      = Returns (stream_id (view txn) + 1, None) txn1 ∧
    DeleteInviteEvent Background (EventID inviteEvent) txn1
      = Returns (stream_id (view txn) + 2, None) txn2 ∧
    ∀ result retired txn',
      SelectInviteEventsInRange json_Unmarshal Background k r txn2
        = Returns (Ok (result, retired)) txn' →
      retired !! RoomID inviteEvent = Some event ∧ result !! RoomID inviteEvent = None.
Proof.
  intros Hd Hpk Hm Hnone Hj Hk Hdec Hrange.
  set (c := stream_id (view txn)) in *.
  set (rows := syncapi_invite_events (view txn)) in *.
  set (row := invite_row (c + 1) inviteEvent k j).
  set (txn1 := {| done := false;
                  view := {| stream_id := c + 1;
                             syncapi_invite_events := rows ++ [row] |} |}).
  set (txn2 := {| done := false;
                  view := {| stream_id := c + 2;
                             syncapi_invite_events :=
                               rows ++ [mark_deleted (c + 2) row] |} |}).
  destruct (inserted_tables_invariants txn (c + 1) inviteEvent k j Hpk Hm eq_refl)
    as [Hpk1 Hup1]. fold rows row in Hpk1, Hup1.
  assert (Hins : InsertInviteEvent json_Marshal Background inviteEvent txn
                 = Returns (c + 1, None) txn1) by (by apply InsertInviteEvent_ok).
  assert (Hdel : DeleteInviteEvent Background (EventID inviteEvent) txn1
                 = Returns (c + 2, None) txn2).
  { rewrite (DeleteInviteEvent_retires (EventID inviteEvent) txn1 rows row []).
    - cbn [view stream_id txn1]. replace (c + 1 + 1) with (c + 2) by lia. reflexivity.
    - reflexivity.
    - exact Hup1.
    - reflexivity.
    - unfold is_active_event, row, invite_row. simpl. by rewrite bool_decide_eq_true_2.
    - exact Hnone.
    - constructor. }
  exists txn1, txn2. split; [exact Hins|]. split; [exact Hdel|].
  intros result retired txn' Hsel.
  assert (Hinv2 : primary_key (view txn2) ∧ positions_minted (view txn2)).
  { pose proof (DeleteInviteEvent_keeps_invariants Background (EventID inviteEvent) txn1
                  (conj Hpk1 Hup1)) as H. by rewrite Hdel in H. }
  destruct Hinv2 as [Hpk2 Hm2].
  destruct (scan_files_highest json_Unmarshal Background k r txn2 txn' result retired
              (mark_deleted (c + 2) row) Hpk2 Hsel)
    as (event' & Hdec' & Hfiled).
  - cbn [view syncapi_invite_events txn2]. apply elem_of_app. right. apply list_elem_of_here.
  - unfold in_range. simpl. split; [done|lia].
  - intros row' Hin _ _. unfold positions_minted in Hm2. rewrite Forall_forall in Hm2.
    specialize (Hm2 row' Hin). simpl in *. lia.
  - simpl in Hdec', Hfiled. rewrite Hdec in Hdec'. inversion Hdec'; subst event'. done.
Qed.

End RoundTrips.

Lemma X14_inserted_invite_scans_as_active_witness :
  ∃ txn1,
    InsertInviteEvent Codec.encode Background Sample.invite3 Sample.three_retired
      = Returns (5, None) txn1 ∧
    ∀ result retired txn',
      SelectInviteEventsInRange Codec.decode Background "@u" (mkRange 0 5) txn1
        = Returns (Ok (result, retired)) txn' →
      result !! "!a" = Some Sample.invite3 ∧ retired !! "!a" = None.
Proof.
  apply (X14_inserted_invite_scans_as_active Codec.encode Codec.decode
           Sample.invite3 Sample.invite3 Sample.three_retired "@u"
           (Codec.text Sample.invite3) (mkRange 0 5)).
  - reflexivity.
  - exact three_retired_primary_key.
  - vm_compute. repeat constructor; discriminate.
  - reflexivity.
  - reflexivity.
  - vm_compute. reflexivity.
  - vm_compute. split; [reflexivity|discriminate].
Defined.

Lemma X15_retired_invite_scans_as_retired_witness :
  ∃ txn1 txn2,
    InsertInviteEvent Codec.encode Background Sample.invite1 Sample.fresh
      = Returns (1, None) txn1 ∧
    DeleteInviteEvent Background "$1" txn1 = Returns (2, None) txn2 ∧
    ∀ result retired txn',
      SelectInviteEventsInRange Codec.decode Background "@u" (mkRange 0 2) txn2
        = Returns (Ok (result, retired)) txn' →
      retired !! "!a" = Some Sample.invite1 ∧ result !! "!a" = None.
Proof.
  apply (X15_retired_invite_scans_as_retired Codec.encode Codec.decode
           Sample.invite1 Sample.invite1 Sample.fresh "@u"
           (Codec.text Sample.invite1) (mkRange 0 2)).
  - reflexivity.
  - constructor.
  - constructor.
  - constructor.
  - reflexivity.
  - reflexivity.
  - vm_compute. reflexivity.
  - vm_compute. split; [reflexivity|discriminate].
Defined.

(** ** Opening the federation database *)

Section NewDatabaseFacts.

Import FederationStorage.

Variable failure : Step → option string.

Lemma until_failure_cons_ok s steps :
  failure s = None →
  until_failure failure (s :: steps)
  = (s :: (until_failure failure steps).1, (until_failure failure steps).2).
Proof. intros H. cbn [until_failure]. rewrite H. by destruct (until_failure failure steps). Qed.

Lemma until_failure_cons_failed s steps err :
  failure s = Some err → until_failure failure (s :: steps) = ([s], Some (s, err)).
Proof. intros H. cbn [until_failure]. by rewrite H. Qed.

(** X16: [NewDatabase] takes its twelve steps in the order of the source
    and stops at the first one that fails: the steps taken are exactly
    those up to and including the failing one, so no later constructor
    runs and the migrations run only after all ten tables were made.  The
    error returned is the error of that step, with the constructor's name
    put in front for the two notary tables and unchanged otherwise, and
    the database returned is nil.  When no step fails, all twelve steps
    are taken and a database is returned with a nil error, with the dummy
    writer and each table field holding what its constructor made. *)
Theorem X16_NewDatabase_stops_at_first_failure (cache serverName : string) :
  match until_failure failure steps_in_order with
  | (taken, Some (s, err)) =>
      NewDatabase failure cache serverName [] = ((None, Some (reported s err)), taken)
  | (taken, None) =>
      taken = steps_in_order ∧
      ∃ d, NewDatabase failure cache serverName [] = ((Some d, None), taken) ∧
           writer d = DummyWriter ∧ Writer_ (Database_ d) = DummyWriter ∧
           db d = MadeBy Open ∧ DB (Database_ d) = MadeBy Open ∧
           ServerName (Database_ d) = serverName ∧ Cache (Database_ d) = cache ∧
           FederationJoinedHosts (Database_ d) = MadeBy NewPostgresJoinedHostsTable ∧
           FederationQueuePDUs (Database_ d) = MadeBy NewPostgresQueuePDUsTable ∧
           FederationQueueEDUs (Database_ d) = MadeBy NewPostgresQueueEDUsTable ∧
           FederationQueueJSON (Database_ d) = MadeBy NewPostgresQueueJSONTable ∧
           FederationBlacklist (Database_ d) = MadeBy NewPostgresBlacklistTable ∧
           FederationInboundPeeks (Database_ d) = MadeBy NewPostgresInboundPeeksTable ∧
           FederationOutboundPeeks (Database_ d) = MadeBy NewPostgresOutboundPeeksTable ∧
           NotaryServerKeysJSON (Database_ d) = MadeBy NewPostgresNotaryServerKeysTable ∧
           NotaryServerKeysMetadata (Database_ d)
             = MadeBy NewPostgresNotaryServerKeysMetadataTable ∧
           ServerSigningKeys (Database_ d) = MadeBy NewPostgresServerSigningKeysTable
  end.
Proof.
  unfold steps_in_order, NewDatabase.
  unfold mbind, mret, Setup_bind, Setup_ret, take_step.
  repeat lazymatch goal with
  | |- context [until_failure failure (?s :: _)] =>
      destruct (failure s) as [err|] eqn:?;
      [ erewrite until_failure_cons_failed by eassumption; reflexivity
      | rewrite until_failure_cons_ok by assumption ]
  end.
  cbn [until_failure fst snd app]. split; [reflexivity|].
  eexists. split; [reflexivity|]. cbn. split_and!; reflexivity.
Qed.

End NewDatabaseFacts.

Lemma X16_NewDatabase_stops_at_first_failure_witness :
  FederationStorage.NewDatabase FederationStorage.notary_metadata_fails
    "cache" "a.example" []
  = ((None, Some "NewPostgresNotaryServerKeysMetadataTable: no space"%string),
     take 10 FederationStorage.steps_in_order).
Proof.
  exact (X16_NewDatabase_stops_at_first_failure FederationStorage.notary_metadata_fails
           "cache" "a.example").
Defined.

(** ** Positions across calls *)

Lemma DeleteInviteEvent_success_inv ctx eid txn p txn' :
  DeleteInviteEvent ctx eid txn = Returns (p, None) txn' →
  done txn = false ∧ ctx = Background ∧ p = stream_id (view txn) + 1 ∧
  stream_id (view txn') = p ∧
  syncapi_invite_events (view txn')
    = retire_row p eid <$> syncapi_invite_events (view txn) ∧
  sql_update (is_active_event eid) (mark_deleted p) [] (syncapi_invite_events (view txn))
    = Ok (syncapi_invite_events (view txn')).
Proof.
  intros H. destruct (done txn) eqn:Hd.
  { destruct (DeleteInviteEvent_stopped ctx eid txn) as [err Herr]; [by left|]. congruence. }
  destruct ctx.
  2:{ destruct (DeleteInviteEvent_stopped Canceled eid txn) as [err Herr]; [by right|].
      congruence. }
  rewrite DeleteInviteEvent_live in H by done. cbv zeta in H.
  destruct (sql_update _ _ _ _) as [rows|err] eqn:Hupd; [|congruence].
  inversion H; subst. cbn [view stream_id syncapi_invite_events].
  split_and!; try done. apply sql_update_shape in Hupd. by rewrite Hupd.
Qed.

Lemma call_outcome_state json_Marshal txn c :
  after_call json_Marshal txn c = state_of (call_outcome json_Marshal txn c).
Proof. by destruct c. Qed.

Lemma call_success_inv json_Marshal txn c p txn' :
  call_outcome json_Marshal txn c = Returns (p, None) txn' →
  p = stream_id (view txn) + 1 ∧ stream_id (view txn') = p.
Proof.
  destruct c as [ctx e|ctx eid]; cbn [call_outcome]; intros H.
  - apply InsertInviteEvent_success_inv in H as (_ & _ & Hp & k & j & _ & _ & _ & ->). done.
  - apply DeleteInviteEvent_success_inv in H as (_ & _ & Hp & Hc & _). done.
Qed.

(** The counter never goes back. *)
Lemma after_call_counter json_Marshal txn c :
  stream_id (view txn) ≤ stream_id (view (after_call json_Marshal txn c)).
Proof.
  destruct c as [ctx e|ctx eid]; cbn [after_call].
  - destruct (done txn) eqn:Hd.
    { destruct (InsertInviteEvent_stopped json_Marshal ctx e txn) as [err ->]; [by left|].
      done. }
    destruct ctx.
    2:{ destruct (InsertInviteEvent_stopped json_Marshal Canceled e txn) as [err ->];
          [by right|]. done. }
    rewrite InsertInviteEvent_live by done. cbv zeta.
    destruct (json_Marshal e); [|simpl; lia].
    destruct (StateKey e); [|simpl; lia].
    destruct (sql_insert _ _); simpl; lia.
  - destruct (done txn) eqn:Hd.
    { destruct (DeleteInviteEvent_stopped ctx eid txn) as [err ->]; [by left|]. done. }
    destruct ctx.
    2:{ destruct (DeleteInviteEvent_stopped Canceled eid txn) as [err ->]; [by right|].
        done. }
    rewrite DeleteInviteEvent_live by done. cbv zeta.
    destruct (sql_update _ _ _ _); simpl; lia.
Qed.

Lemma after_calls_counter json_Marshal calls txn :
  stream_id (view txn) ≤ stream_id (view (after_calls json_Marshal calls txn)).
Proof.
  revert txn. induction calls as [|c calls IH]; intros txn; [done|].
  cbn [after_calls foldl]. etrans; [apply (after_call_counter json_Marshal txn c)|].
  apply IH.
Qed.

(** X3: the positions that successful calls return on one transaction are
    strictly increasing, for inserts and retirements alike and whatever
    calls, failed or faulting ones included, come in between. *)
Theorem X3_positions_strictly_increase_across_calls
    (json_Marshal : HeaderedEvent → fallible string)
    (first : Call) (between : list Call) (second : Call)
    (txn txn1 txn2 : Tx) (p1 p2 : StreamPosition) :
  call_outcome json_Marshal txn first = Returns (p1, None) txn1 →
  call_outcome json_Marshal (after_calls json_Marshal between txn1) second
    = Returns (p2, None) txn2 →
  p1 < p2.
Proof.
  intros H1 H2. apply call_success_inv in H1 as [_ Hc1].
  apply call_success_inv in H2 as [-> _].
  pose proof (after_calls_counter json_Marshal between txn1). lia.
Qed.

Lemma X3_positions_strictly_increase_across_calls_witness :
  call_outcome Codec.strict Sample.fresh (CallInsert Background Sample.invite1)
    = Returns (1, None)
        (after_call Codec.strict Sample.fresh (CallInsert Background Sample.invite1)) ∧
  call_outcome Codec.strict
    (after_calls Codec.strict
       [CallInsert Background Sample.message; CallDelete Canceled "$1"]
       (after_call Codec.strict Sample.fresh (CallInsert Background Sample.invite1)))
    (CallDelete Background "$1")
    = Returns (3, None)
        (after_calls Codec.strict
           [CallInsert Background Sample.invite1; CallInsert Background Sample.message;
            CallDelete Canceled "$1"; CallDelete Background "$1"] Sample.fresh) ∧
  1 < 3.
Proof.
  assert (H1 : call_outcome Codec.strict Sample.fresh (CallInsert Background Sample.invite1)
    = Returns (1, None)
        (after_call Codec.strict Sample.fresh (CallInsert Background Sample.invite1)))
    by (vm_compute; reflexivity).
  assert (H2 : call_outcome Codec.strict
    (after_calls Codec.strict
       [CallInsert Background Sample.message; CallDelete Canceled "$1"]
       (after_call Codec.strict Sample.fresh (CallInsert Background Sample.invite1)))
    (CallDelete Background "$1")
    = Returns (3, None)
        (after_calls Codec.strict
           [CallInsert Background Sample.invite1; CallInsert Background Sample.message;
            CallDelete Canceled "$1"; CallDelete Background "$1"] Sample.fresh))
    by (vm_compute; reflexivity).
  split; [exact H1|]. split; [exact H2|].
  exact (X3_positions_strictly_increase_across_calls Codec.strict _ _ _ _ _ _ 1 3 H1 H2).
Defined.

(** ** After a retirement that went through *)

Lemma filter_two_split {A} (P : A → Prop) `{∀ x, Decision (P x)} (l : list A) :
  (2 ≤ length (filter P l))%nat →
  ∃ l1 r1 l2 r2 l3, l = l1 ++ r1 :: l2 ++ r2 :: l3 ∧ P r1 ∧ P r2.
Proof.
  induction l as [|x l IH]; intros Hlen; [simpl in Hlen; lia|].
  destruct (decide (P x)) as [Hx|Hx].
  - rewrite filter_cons_True in Hlen by done.
    destruct (filter P l) as [|y ys] eqn:Hf; [simpl in Hlen; lia|].
    assert (Hy : y ∈ filter P l) by (rewrite Hf; apply list_elem_of_here).
    apply list_elem_of_filter in Hy as [HPy Hy].
    apply list_elem_of_split in Hy as (l2 & l3 & ->).
    exists [], x, l2, y, l3. done.
  - rewrite filter_cons_False in Hlen by done.
    destruct (IH Hlen) as (l1 & r1 & l2 & r2 & l3 & -> & H1 & H2).
    exists (x :: l1), r1, l2, r2, l3. done.
Qed.

(** X17: when [DeleteInviteEvent] returns without error, no undeleted row
    with the event id is left in the table; and on a transaction whose ids
    were all handed out by the counter, at most one row carried the event
    id undeleted before the call, so the call retired one row or none. *)
Theorem X17_successful_delete_leaves_no_active_row
    (ctx : Context) (inviteEventID : string) (txn txn' : Tx) (p : StreamPosition) :
  positions_minted (view txn) →
  DeleteInviteEvent ctx inviteEventID txn = Returns (p, None) txn' →
  Forall (λ r, is_active_event inviteEventID r = false)
         (syncapi_invite_events (view txn')) ∧
  (length (filter (λ r, is_active_event inviteEventID r = true)
             (syncapi_invite_events (view txn))) ≤ 1)%nat.
Proof.
  intros Hm H. split.
  - apply DeleteInviteEvent_success_inv in H as (_ & _ & _ & _ & -> & _).
    apply Forall_fmap, Forall_forall. intros r _. unfold compose, retire_row.
    destruct (is_active_event inviteEventID r) eqn:Hr; [|done].
    apply is_active_event_mark_deleted.
  - destruct (decide (2 ≤ length (filter (λ r, is_active_event inviteEventID r = true)
                                    (syncapi_invite_events (view txn))))%nat)
      as [Htwo|Hfew]; [|lia].
    exfalso. apply filter_two_split in Htwo as (l1 & r1 & l2 & r2 & l3 & Hrows & H1 & H2).
    apply DeleteInviteEvent_success_inv in H as Hinv. destruct Hinv as (Hd & -> & _).
    rewrite (DeleteInviteEvent_two_active inviteEventID txn l1 r1 l2 r2 l3) in H by done.
    congruence.
Qed.

Lemma X17_successful_delete_leaves_no_active_row_witness :
  positions_minted (view Sample.three) ∧
  DeleteInviteEvent Background "$1" Sample.three = Returns (4, None) Sample.three_retired ∧
  Forall (λ r, is_active_event "$1" r = false)
         (syncapi_invite_events (view Sample.three_retired)).
Proof.
  assert (Hm : positions_minted (view Sample.three)).
  { vm_compute. repeat constructor; discriminate. }
  assert (H : DeleteInviteEvent Background "$1" Sample.three
              = Returns (4, None) Sample.three_retired) by (vm_compute; reflexivity).
  split; [exact Hm|]. split; [exact H|].
  exact (proj1 (X17_successful_delete_leaves_no_active_row Background "$1" Sample.three
                  Sample.three_retired 4 Hm H)).
Defined.
